(** * m3u82mp3: the playlist-to-bytes pipeline of [m3u82mp3.py]

    A shallow embedding of the converter: the parsed playlist object, the
    URL test [is_valid], the fetch [read_bytes], the output writer
    [save_converted_mp3], the base-location scan [get_host_uri], the
    per-segment loop of [get_ts_from_m3u8] and [convert].

    Python exceptions are values of [exn]; a computation that may raise
    returns [exn + A].  Code that touches the network, the file system or
    the output file object runs in the monad [M], which threads the state
    of the outside world and a trace of the I/O calls performed. *)

From Stdlib Require Import ZArith List String Ascii Bool Lia.
From Stdlib.Strings Require Import Byte.
Import ListNotations.

Local Open Scope string_scope.
Local Open Scope list_scope.
Local Open Scope Z_scope.

(** ** Exceptions *)

Inductive exn : Type :=
| TypeError (msg : string)
| AttributeError (msg : string)
| IndexError (msg : string)
| ValueError (msg : string)
| binascii_Error (msg : string)
| OtherError (cls msg : string).

(** [binascii.Error] is a subclass of [ValueError]. *)
Definition is_ValueError (e : exn) : bool :=
  match e with
  | ValueError _ | binascii_Error _ => true
  | _ => false
  end.

Definition result (A : Type) : Type := (exn + A)%type.

Definition Ok {A} (a : A) : result A := inr a.
Definition Raise {A} (e : exn) : result A := inl e.

Definition rbind {A B} (r : result A) (f : A -> result B) : result B :=
  match r with
  | inl e => inl e
  | inr a => f a
  end.

Declare Scope result_scope.
Delimit Scope result_scope with result.
Notation "x <- c ;; k" := (rbind c (fun x => k))
  (at level 61, c at next level, right associativity) : result_scope.

(** ** Python values the script handles *)

Definition bytes : Type := list byte.

(** Truthiness of a [str] / of a [bytes] that may be [None]. *)
Definition truthy_str (s : string) : bool :=
  match s with
  | EmptyString => false
  | _ => true
  end.

Definition truthy_opt_str (s : option string) : bool :=
  match s with
  | None => false
  | Some s => truthy_str s
  end.

Definition truthy_opt_bytes (b : option bytes) : bool :=
  match b with
  | None | Some [] => false
  | Some (_ :: _) => true
  end.

(** The attributes of the parsed playlist (package [m3u8]) that the script
    reads.  A key object may be [None] (in [keys] and on a segment), and
    its [uri] may be [None]. *)
Module Key.
Record t : Type := mk { method : string; uri : option string }.
End Key.

Module Segment.
Record t : Type := mk { uri : string; key : option Key.t }.
End Segment.

Module M3U8.
Record t : Type := mk {
  media_sequence : Z;
  keys : list (option Key.t);
  segments : list Segment.t
}.
End M3U8.

(** The six-field result of [urllib.parse.urlparse]. *)
Inductive url_attr : Type :=
| scheme | netloc | path | params | query | fragment.

Record ParseResult : Type := mkParseResult {
  pr_scheme : string;
  pr_netloc : string;
  pr_path : string;
  pr_params : string;
  pr_query : string;
  pr_fragment : string
}.

Definition getattr (token : ParseResult) (a : url_attr) : string :=
  match a with
  | scheme => pr_scheme token
  | netloc => pr_netloc token
  | path => pr_path token
  | params => pr_params token
  | query => pr_query token
  | fragment => pr_fragment token
  end.

(** ** String helpers: [str.split], slicing, [os.path.join], ['%032x'] *)

(** [s.split(sep)] for a one-character separator. *)
Fixpoint str_split (sep : ascii) (s : string) : list string :=
  match s with
  | EmptyString => [EmptyString]
  | String c rest =>
      if Ascii.eqb c sep then EmptyString :: str_split sep rest
      else match str_split sep rest with
           | h :: t => String c h :: t
           | [] => [String c EmptyString]
           end
  end.

Definition startswith_slash (s : string) : bool :=
  match s with
  | String c _ => Ascii.eqb c "/"
  | EmptyString => false
  end.

Fixpoint endswith_slash (s : string) : bool :=
  match s with
  | EmptyString => false
  | String c EmptyString => Ascii.eqb c "/"
  | String _ rest => endswith_slash rest
  end.

(** [os.path.join(a, b)] (posixpath). *)
Definition os_path_join (a b : string) : string :=
  if startswith_slash b then b
  else if negb (truthy_str a) || endswith_slash a then (a ++ b)%string
  else (a ++ "/" ++ b)%string.

(** Hexadecimal digits. *)
Definition hexchar (d : Z) : ascii :=
  if d <? 10 then ascii_of_N (Z.to_N (48 + d)) else ascii_of_N (Z.to_N (87 + d)).

Definition hexval (c : ascii) : option Z :=
  let n := Z.of_N (N_of_ascii c) in
  if (48 <=? n) && (n <=? 57) then Some (n - 48)
  else if (97 <=? n) && (n <=? 102) then Some (n - 87)
  else if (65 <=? n) && (n <=? 70) then Some (n - 55)
  else None.

(** Number of hexadecimal digits of [n >= 0], as ['%x'] prints it. *)
Definition hex_len (n : Z) : nat :=
  if n =? 0 then 1%nat else Z.to_nat (Z.log2 n / 4 + 1).

Definition nibble (n : Z) (i : nat) : Z := (n / 16 ^ Z.of_nat i) mod 16.

(** The [w] low hexadecimal digits of [n], most significant first. *)
Definition hex_digits (n : Z) (w : nat) : list ascii :=
  map (fun i => hexchar (nibble n i)) (rev (seq 0 w)).

(** ['%032x' % n]: lower-case hexadecimal, zero-padded to width 32; a
    negative number prints its sign, which counts in the width. *)
Definition format_032x (n : Z) : string :=
  if n <? 0
  then String "-" (string_of_list_ascii (hex_digits (- n) (Nat.max 31 (hex_len (- n)))))
  else string_of_list_ascii (hex_digits n (Nat.max 32 (hex_len n))).

(** ** [binascii.a2b_hex] *)

Definition byte_of_Z (v : Z) : byte :=
  match Byte.of_N (Z.to_N v) with
  | Some b => b
  | None => x00
  end.

Definition Z_of_byte (b : byte) : Z := Z.of_N (Byte.to_N b).

Fixpoint a2b_pairs (cs : list ascii) : result bytes :=
  match cs with
  | [] => Ok []
  | hi :: lo :: rest =>
      match hexval hi, hexval lo with
      | Some h, Some l =>
          match a2b_pairs rest with
          | inr bs => Ok (byte_of_Z (16 * h + l) :: bs)
          | inl e => Raise e
          end
      | _, _ => Raise (binascii_Error "Non-hexadecimal digit found")
      end
  | [_] => Raise (binascii_Error "Odd-length string")
  end.

Definition is_ascii_char (c : ascii) : bool := (N_of_ascii c <? 128)%N.

Definition a2b_hex (hexstr : string) : result bytes :=
  let cs := list_ascii_of_string hexstr in
  if negb (forallb is_ascii_char cs)
  then Raise (ValueError "string argument should contain only ASCII characters")
  else if Nat.odd (List.length cs)
  then Raise (binascii_Error "Odd-length string")
  else a2b_pairs cs.

(** Lines 152-153 of the script: [iv = binascii.a2b_hex('%032x' % ind)]. *)
Definition derive_iv (ind : Z) : result bytes := a2b_hex (format_032x ind).

(** [int.from_bytes(bs, 'big')]. *)
Definition int_from_bytes_big (bs : bytes) : Z :=
  fold_left (fun acc b => 256 * acc + Z_of_byte b) bs 0.

(** [n.to_bytes(len, 'big')] for [0 <= n < 256 ^ len]. *)
Definition int_to_bytes_big (len : nat) (n : Z) : bytes :=
  map (fun i => byte_of_Z ((n / 256 ^ Z.of_nat i) mod 256)) (rev (seq 0 len)).

(** ** [Crypto.Cipher.AES] in CBC mode

    [AES.new(key, AES.MODE_CBC, iv=iv)] raises [ValueError] unless the key
    is 16, 24 or 32 bytes long and the IV is exactly one block (16 bytes).
    The cipher object keeps both; the block transformation itself is a
    parameter of the environment ([cbc_decrypt] below), a function of the
    key, the IV and the data. *)

Record cipher : Type := mkCipher { cipher_key : bytes; cipher_iv : bytes }.

Definition valid_key_len (key : bytes) : bool :=
  let n := List.length key in
  (n =? 16)%nat || (n =? 24)%nat || (n =? 32)%nat.

Definition AES_new (key iv : bytes) : result cipher :=
  if negb (valid_key_len key)
  then Raise (ValueError "Incorrect AES key length")
  else if negb (List.length iv =? 16)%nat
  then Raise (ValueError "Incorrect IV length (it must be 16 bytes long)")
  else Ok (mkCipher key iv).

(** ** The environment and the I/O monad *)

(** An output file object is named by a handle. *)
Definition file_object : Type := nat.

(** What the script calls outside itself: the playlist parser, the URL
    parser, the network, the file system, the block cipher and the file
    object it is given to write to.  Network, file system and output answer
    from, and may change, a state [World]; each of them may raise. *)
Record Env : Type := mkEnv {
  World : Type;
  m3u8_loads : string -> result M3U8.t;
  urlparse : option string -> result ParseResult;
  urlopen_read : option string -> World -> result bytes * World;
  open_rb_read : option string -> World -> result bytes * World;
  cbc_decrypt : bytes -> bytes -> bytes -> result bytes;
  output_write : file_object -> bytes -> World -> result unit * World
}.

(** The I/O calls of the script, with what they returned. *)
Inductive event : Type :=
| EvPrint (path : option string)
| EvUrlopen (path : option string) (r : result bytes)
| EvOpen (path : option string) (r : result bytes)
| EvWrite (output : file_object) (content : bytes) (r : result unit)
| EvDecrypt (c : cipher) (data : bytes) (r : result bytes).

Section Pipeline.

Variable E : Env.

Record State : Type := mkState { world : World E; trace : list event }.

Definition M (A : Type) : Type := State -> result A * State.

Definition ret {A} (a : A) : M A := fun st => (Ok a, st).
Definition raise {A} (e : exn) : M A := fun st => (Raise e, st).
Definition lift {A} (r : result A) : M A := fun st => (r, st).

Definition bind {A B} (c : M A) (f : A -> M B) : M B :=
  fun st =>
    match c st with
    | (inl e, st') => (inl e, st')
    | (inr a, st') => f a st'
    end.

Definition log (ev : event) : M unit :=
  fun st => (Ok tt, mkState (world st) (trace st ++ [ev])).

(** [print(path)] *)
Definition print (p : option string) : M unit := log (EvPrint p).

(** [urlopen(path).read()] *)
Definition urlopen (p : option string) : M bytes :=
  fun st =>
    let '(r, w) := urlopen_read E p (world st) in
    (r, mkState w (trace st ++ [EvUrlopen p r])).

(** [with open(path, "rb") as fp: fp.read()] *)
Definition open_rb (p : option string) : M bytes :=
  fun st =>
    let '(r, w) := open_rb_read E p (world st) in
    (r, mkState w (trace st ++ [EvOpen p r])).

(** [output.write(content)]: whatever the file object does with it. *)
Definition write (output : file_object) (content : bytes) : M unit :=
  fun st =>
    let '(r, w) := output_write E output content (world st) in
    (r, mkState w (trace st ++ [EvWrite output content r])).

(** [cipher.decrypt(data)] *)
Definition cipher_decrypt (c : cipher) (data : bytes) : M bytes :=
  fun st =>
    let r := cbc_decrypt E (cipher_key c) (cipher_iv c) data in
    (r, mkState (world st) (trace st ++ [EvDecrypt c data r])).

End Pipeline.

Arguments ret {E A} a.
Arguments raise {E A} e.
Arguments lift {E A} r.
Arguments bind {E A B} c f.
Arguments world {E} s.
Arguments trace {E} s.
Arguments mkState {E} world trace.

Declare Scope io_scope.
Delimit Scope io_scope with io.
Notation "x <- c ;; k" := (bind c (fun x => k))
  (at level 61, c at next level, right associativity) : io_scope.
Notation "c ;;; k" := (bind c (fun _ => k))
  (at level 61, right associativity) : io_scope.

(** ** The script *)

Section Script.

Variable E : Env.

Definition min_attributes : list url_attr := [scheme; netloc].

(** [is_valid(url, qualifying=None)] *)
Definition is_valid (url : option string) (qualifying : option (list url_attr))
  : result bool :=
  let qualifying :=
    match qualifying with
    | None | Some [] => min_attributes
    | Some q => q
    end in
  (token <- urlparse E url ;;
   Ok (forallb (fun qualifying_attr => truthy_str (getattr token qualifying_attr))
         qualifying))%result.

(** [read_bytes(path, silent=True)] *)
Definition read_bytes (path : option string) (silent : bool) : M E bytes :=
  (is_url <- lift (is_valid path None) ;;
   if is_url : bool then
     (if negb silent then print E path else ret tt) ;;;
     urlopen E path
   else
     open_rb E path)%io.

(** [save_converted_mp3(output, content)] *)
Definition save_converted_mp3 (output : file_object) (content : option bytes)
  : M E unit :=
  match content with
  | None => raise (TypeError "Empty mp3 content to save.")
  | Some content => write E output content
  end.

(** The body of the [try] in [get_host_uri]: [m3u8_obj.keys[i].uri], then
    the directory part of that URI. *)
Definition host_uri_of_key (keys : list (option Key.t)) (i : nat) : result string :=
  match nth_error keys i with
  | None => Raise (IndexError "list index out of range")
  | Some None => Raise (AttributeError "'NoneType' object has no attribute 'uri'")
  | Some (Some k) =>
      match Key.uri k with
      | None => Raise (AttributeError "'NoneType' object has no attribute 'split'")
      | Some key_uri => Ok (String.concat "/" (removelast (str_split "/" key_uri)))
      end
  end.

(** The [for i in range(media_sequence)] loop of [get_host_uri]; only
    [AttributeError] is caught. *)
Fixpoint get_host_uri_loop (keys : list (option Key.t)) (range : list nat)
  : result (option string) :=
  match range with
  | [] => Ok None
  | i :: range' =>
      match host_uri_of_key keys i with
      | inr host_uri => Ok (Some host_uri)
      | inl (AttributeError _) => get_host_uri_loop keys range'
      | inl e => Raise e
      end
  end.

(** [get_host_uri(m3u8_obj)] *)
Definition get_host_uri (m3u8_obj : M3U8.t) : result (option string) :=
  let media_sequence := M3U8.media_sequence m3u8_obj in
  get_host_uri_loop (M3U8.keys m3u8_obj) (seq 0 (Z.to_nat media_sequence)).

(** [segment.key.method] *)
Definition segment_key_method (segment : Segment.t) : result string :=
  match Segment.key segment with
  | None => Raise (AttributeError "'NoneType' object has no attribute 'method'")
  | Some k => Ok (Key.method k)
  end.

(** [segment.key.uri], read only after [segment.key.method] succeeded. *)
Definition segment_key_uri (segment : Segment.t) : result (option string) :=
  match Segment.key segment with
  | None => Raise (AttributeError "'NoneType' object has no attribute 'uri'")
  | Some k => Ok (Key.uri k)
  end.

(** [decrypt_func(data)]: the identity, or [cipher.decrypt]. *)
Definition decrypt_func (c : option cipher) (data : bytes) : M E bytes :=
  match c with
  | None => ret data
  | Some c => cipher_decrypt E c data
  end.

(** Lines 145-155: the [decrypt_func] chosen for the segment of index [i]
    ([None] stands for [lambda x: x]) and the loop variable [key] after
    the choice. *)
Definition select_decrypt_func (media_sequence : Z) (i : nat)
    (segment : Segment.t) (key : option bytes)
  : M E (option bytes * option cipher) :=
  (method <- lift (segment_key_method segment) ;;
   if String.eqb method "AES-128" then
     key <- (if negb (truthy_opt_bytes key) then
               key_uri <- lift (segment_key_uri segment) ;;
               read_bytes key_uri true
             else ret (match key with Some k => k | None => [] end)) ;;
     let ind := Z.of_nat i + media_sequence in
     iv <- lift (derive_iv ind) ;;
     cipher <- lift (AES_new key iv) ;;
     ret (Some key, Some cipher)
   else ret (key, None))%io.

(** One iteration of the loop of [get_ts_from_m3u8]; the loop variables
    [key] and [ts_content] go in and come out. *)
Definition segment_body (media_sequence : Z) (host_uri : string)
    (i : nat) (segment : Segment.t) (key : option bytes) (ts_content : bytes)
  : M E (option bytes * bytes) :=
  (kc <- select_decrypt_func media_sequence i segment key ;;
   let '(key, c) := kc in
   let ts_url := os_path_join host_uri (Segment.uri segment) in
   data <- read_bytes (Some ts_url) true ;;
   plain <- decrypt_func c data ;;
   ret (key, ts_content ++ plain))%io.

(** [for i, segment in enumerate(m3u8_obj.segments): ...] from index [i]. *)
Fixpoint segments_loop (media_sequence : Z) (host_uri : string)
    (i : nat) (segs : list Segment.t) (key : option bytes) (ts_content : bytes)
  : M E bytes :=
  match segs with
  | [] => ret ts_content
  | segment :: segs' =>
      (kt <- segment_body media_sequence host_uri i segment key ts_content ;;
       segments_loop media_sequence host_uri (S i) segs' (fst kt) (snd kt))%io
  end.

(** [get_ts_from_m3u8(input, host_uri=None)]; [input] is the text that
    [input.read()] returns. *)
Definition get_ts_from_m3u8 (input : string) (host_uri : option string) : M E bytes :=
  (m3u8_obj <- lift (m3u8_loads E input) ;;
   let media_sequence := M3U8.media_sequence m3u8_obj in
   host_uri <- (if truthy_opt_str host_uri then ret host_uri
                else lift (get_host_uri m3u8_obj)) ;;
   match host_uri with
   | None => raise (TypeError "Host URL is not set.")
   | Some host_uri =>
       segments_loop media_sequence host_uri 0 (M3U8.segments m3u8_obj) None []
   end)%io.

(** [convert(input, output)] *)
Definition convert (input : string) (output : file_object) : M E unit :=
  (ts_bytes <- get_ts_from_m3u8 input None ;;
   save_converted_mp3 output (Some ts_bytes))%io.

End Script.

(** ** What a run can be observed to do *)

(** The external calls of a run, without their results. *)
Inductive call : Type :=
| CPrint (p : option string)
| CRead (p : option string)
| CWrite (output : file_object) (content : bytes)
| CDecrypt (iv : bytes).

Definition call_of_event (ev : event) : call :=
  match ev with
  | EvPrint p => CPrint p
  | EvUrlopen p _ | EvOpen p _ => CRead p
  | EvWrite o c _ => CWrite o c
  | EvDecrypt c _ _ => CDecrypt (cipher_iv c)
  end.

(** The bytes that the fetches of a trace returned, in order. *)
Definition fetched (t : list event) : list bytes :=
  flat_map (fun ev =>
              match ev with
              | EvUrlopen _ (inr b) | EvOpen _ (inr b) => [b]
              | _ => []
              end) t.

(** The bytes that the successful writes of a trace gave to [output]. *)
Definition written (output : file_object) (t : list event) : bytes :=
  flat_map (fun ev =>
              match ev with
              | EvWrite o c (inr _) => if Nat.eqb o output then c else []
              | _ => []
              end) t.

Definition is_read (ev : event) : bool :=
  match ev with
  | EvUrlopen _ _ | EvOpen _ _ => true
  | _ => false
  end.

Definition is_prefix {A} (l1 l2 : list A) : Prop := exists l3, l2 = l1 ++ l3.

Definition is_aes128 (segment : Segment.t) : bool :=
  match Segment.key segment with
  | Some k => String.eqb (Key.method k) "AES-128"
  | None => false
  end.

Definition key_uri_of (segment : Segment.t) : option string :=
  match Segment.key segment with
  | Some k => Key.uri k
  | None => None
  end.

(** The calls a conversion is due to make for the segments from index [i]
    on: the one fetch of the key, tagged apart from the fetches of the
    segments, and the decryptions with their IVs. *)
Inductive step : Type :=
| KeyRead (p : option string)
| SegRead (p : option string)
| Decrypt (iv : bytes).

Definition call_of_step (s : step) : call :=
  match s with
  | KeyRead p | SegRead p => CRead p
  | Decrypt iv => CDecrypt iv
  end.

Definition is_key_read (s : step) : bool :=
  match s with
  | KeyRead _ => true
  | _ => false
  end.

(** The calls due for the segment of index [i]. *)
Definition segment_plan (media_sequence : Z) (host_uri : string) (i : nat)
    (have_key : bool) (segment : Segment.t) : list step :=
  let ts_url := os_path_join host_uri (Segment.uri segment) in
  if is_aes128 segment then
    (if have_key then [] else [KeyRead (key_uri_of segment)]) ++
    [SegRead (Some ts_url);
     Decrypt (int_to_bytes_big 16 (Z.of_nat i + media_sequence))]
  else [SegRead (Some ts_url)].

Fixpoint call_plan (media_sequence : Z) (host_uri : string) (i : nat)
    (have_key : bool) (segs : list Segment.t) : list step :=
  match segs with
  | [] => []
  | segment :: segs' =>
      segment_plan media_sequence host_uri i have_key segment ++
      call_plan media_sequence host_uri (S i) (have_key || is_aes128 segment) segs'
  end.

(** The IVs of the decryptions of a trace, in order. *)
Definition decrypt_ivs (t : list event) : list bytes :=
  flat_map (fun ev =>
              match ev with
              | EvDecrypt c _ _ => [cipher_iv c]
              | _ => []
              end) t.

(** The indices, counted from [i], of the AES-128 segments of a list. *)
Fixpoint aes_indices (i : nat) (segs : list Segment.t) : list nat :=
  match segs with
  | [] => []
  | segment :: segs' =>
      (if is_aes128 segment then [i] else []) ++ aes_indices (S i) segs'
  end.

(** The key part of a segment's plan. *)
Definition key_plan (have_key : bool) (seg : Segment.t) : list step :=
  if is_aes128 seg && negb have_key then [KeyRead (key_uri_of seg)] else [].

(** No segment is marked AES-128. *)
Definition unencrypted (segs : list Segment.t) : bool :=
  forallb (fun s => negb (is_aes128 s)) segs.

(** Every segment URI is an absolute URL for [is_valid]. *)
Definition all_uris_absolute (E : Env) (segs : list Segment.t) : bool :=
  forallb (fun s =>
             match is_valid E (Some (Segment.uri s)) None with
             | inr true => true
             | _ => false
             end) segs.

(** A key location is unusable when fetching it, in whatever state of the
    world, raises or returns bytes that are no AES key. *)
Definition key_unusable (E : Env) (key_uri : option string) : Prop :=
  forall st : State E,
    match fst (read_bytes E key_uri true st) with
    | inl _ => True
    | inr k => valid_key_len k = false
    end.

(** The libraries of an environment never raise the exception [e]. *)
Definition env_never_raises (E : Env) (e : exn) : Prop :=
  (forall p, urlparse E p <> inl e) /\
  (forall p w, fst (urlopen_read E p w) <> inl e) /\
  (forall p w, fst (open_rb_read E p w) <> inl e) /\
  (forall k iv d, cbc_decrypt E k iv d <> inl e).

Definition host_not_set : exn := TypeError "Host URL is not set.".

(** The host that [get_ts_from_m3u8] settles on at line 137. *)
Definition resolved_host (m3u8_obj : M3U8.t) (host_uri : option string)
  : result (option string) :=
  if truthy_opt_str host_uri then Ok host_uri else get_host_uri m3u8_obj.

(** ** Runs of the script as relations

    [runs c post]: from every state, [c] extends the trace by some events
    [new], and its result and [new] satisfy [post]. *)
Definition runs {E : Env} {A : Type} (c : M E A)
    (post : result A -> list event -> Prop) : Prop :=
  forall st, exists new,
    trace (snd (c st)) = trace st ++ new /\ post (fst (c st)) new.

(** What a silent [read_bytes(p)] can do: raise out of [urlparse] before
    any I/O, or make one call to the network or to the file system. *)
Inductive read_post (E : Env) (p : option string)
  : result bytes -> list event -> Prop :=
| read_unparsed (e : exn) (st : State E) :
    urlparse E p = inl e ->
    fst (read_bytes E p true st) = inl e ->
    read_post E p (inl e) []
| read_network (r : result bytes) (st : State E) :
    is_valid E p None = Ok true ->
    r = fst (urlopen_read E p (world st)) ->
    fst (read_bytes E p true st) = r ->
    read_post E p r [EvUrlopen p r]
| read_local (r : result bytes) (st : State E) :
    is_valid E p None = Ok false ->
    r = fst (open_rb_read E p (world st)) ->
    fst (read_bytes E p true st) = r ->
    read_post E p r [EvOpen p r].

(** Where the key of an AES-128 segment comes from: the loop variable when
    it is set, else one fetch of the segment's key URI. *)
Inductive key_source (E : Env) (segment : Segment.t) (key : option bytes)
  : bytes -> list event -> Prop :=
| key_cached (k : bytes) :
    key = Some k -> truthy_opt_bytes key = true ->
    key_source E segment key k []
| key_fetched (k : bytes) (new : list event) :
    truthy_opt_bytes key = false ->
    read_post E (key_uri_of segment) (inr k) new ->
    key_source E segment key k new.

(** The outcomes of lines 145-155 for the segment of index [i]. *)
Inductive select_post (E : Env) (media_sequence : Z) (i : nat)
    (segment : Segment.t) (key : option bytes)
  : result (option bytes * option cipher) -> list event -> Prop :=
| select_no_key_object (msg : string) :
    Segment.key segment = None ->
    select_post E media_sequence i segment key (inl (AttributeError msg)) []
| select_identity :
    Segment.key segment <> None -> is_aes128 segment = false ->
    select_post E media_sequence i segment key (inr (key, None)) []
| select_fetch_fails (e : exn) (new : list event) :
    is_aes128 segment = true -> truthy_opt_bytes key = false ->
    read_post E (key_uri_of segment) (inl e) new ->
    select_post E media_sequence i segment key (inl e) new
| select_setup_fails (k : bytes) (e : exn) (new : list event) :
    is_aes128 segment = true -> key_source E segment key k new ->
    rbind (derive_iv (Z.of_nat i + media_sequence)) (AES_new k) = inl e ->
    select_post E media_sequence i segment key (inl e) new
| select_cipher (k iv : bytes) (c : cipher) (new : list event) :
    is_aes128 segment = true -> key_source E segment key k new ->
    derive_iv (Z.of_nat i + media_sequence) = Ok iv ->
    AES_new k iv = Ok c ->
    select_post E media_sequence i segment key (inr (Some k, Some c)) new.

(** The outcomes of one iteration of the loop. *)
Inductive body_post (E : Env) (media_sequence : Z) (host_uri : string) (i : nat)
    (segment : Segment.t) (key : option bytes) (ts_content : bytes)
  : result (option bytes * bytes) -> list event -> Prop :=
| body_select_fails (e : exn) (new : list event) :
    select_post E media_sequence i segment key (inl e) new ->
    body_post E media_sequence host_uri i segment key ts_content (inl e) new
| body_read_fails (key' : option bytes) (c : option cipher) (e : exn)
    (new1 new2 : list event) :
    select_post E media_sequence i segment key (inr (key', c)) new1 ->
    read_post E (Some (os_path_join host_uri (Segment.uri segment))) (inl e) new2 ->
    body_post E media_sequence host_uri i segment key ts_content
      (inl e) (new1 ++ new2)
| body_identity (key' : option bytes) (data : bytes) (new1 new2 : list event) :
    select_post E media_sequence i segment key (inr (key', None)) new1 ->
    read_post E (Some (os_path_join host_uri (Segment.uri segment))) (inr data) new2 ->
    body_post E media_sequence host_uri i segment key ts_content
      (inr (key', ts_content ++ data)) (new1 ++ new2)
| body_decrypt (key' : option bytes) (c : cipher) (data : bytes)
    (r : result bytes) (new1 new2 : list event) :
    select_post E media_sequence i segment key (inr (key', Some c)) new1 ->
    read_post E (Some (os_path_join host_uri (Segment.uri segment))) (inr data) new2 ->
    r = cbc_decrypt E (cipher_key c) (cipher_iv c) data ->
    body_post E media_sequence host_uri i segment key ts_content
      (match r with
       | inl e => inl e
       | inr plain => inr (key', ts_content ++ plain)
       end)
      (new1 ++ new2 ++ [EvDecrypt c data r]).

(** ** A small world to run the script in

    A stub parser that knows a few playlists by name, a file system with
    five files, a network with one resource, and a stand-in for the block
    cipher that returns block-aligned data as it is.  The world state
    counts the I/O calls. *)

Definition key_none : Key.t := Key.mk "NONE" None.
Definition key1 : Key.t := Key.mk "AES-128" (Some "base/k1").
Definition key2 : Key.t := Key.mk "AES-128" (Some "base/k2").

Definition playlist_plain3 : M3U8.t :=
  M3U8.mk 0 [Some key_none]
    [Segment.mk "a.ts" (Some key_none); Segment.mk "b.ts" (Some key_none);
     Segment.mk "c.ts" (Some key_none)].

Definition playlist_absolute : M3U8.t :=
  M3U8.mk 0 [] [Segment.mk "http://cdn/a.ts" (Some key_none)].

Definition playlist_rotating : M3U8.t :=
  M3U8.mk 1 [Some key1; Some key2]
    [Segment.mk "e.ts" (Some key1); Segment.mk "e.ts" (Some key2)].

Definition playlist_shared10 : M3U8.t :=
  M3U8.mk 1 [Some key1] (repeat (Segment.mk "e.ts" (Some key1)) 10).

Definition playlist_empty : M3U8.t := M3U8.mk 1 [Some key1] [].

Definition playlist_lostkey : M3U8.t :=
  M3U8.mk 1 [Some key2] [Segment.mk "e.ts" (Some key2)].

(** One key with a URI, and a media sequence number of 0. *)
Definition playlist_ms0 : M3U8.t :=
  M3U8.mk 0 [Some key1] [Segment.mk "e.ts" (Some key1)].

(** A media sequence number beyond the number of keys. *)
Definition playlist_ms2 : M3U8.t :=
  M3U8.mk 2 [None] [Segment.mk "a.ts" None].

Definition toy_loads (input : string) : result M3U8.t :=
  if String.eqb input "plain3" then Ok playlist_plain3
  else if String.eqb input "absolute" then Ok playlist_absolute
  else if String.eqb input "rotating" then Ok playlist_rotating
  else if String.eqb input "shared10" then Ok playlist_shared10
  else if String.eqb input "empty" then Ok playlist_empty
  else if String.eqb input "lostkey" then Ok playlist_lostkey
  else Raise (ValueError "not a playlist").

Definition toy_files : list (string * bytes) :=
  [("base/a.ts", list_byte_of_string "AAA");
   ("base/b.ts", list_byte_of_string "BBB");
   ("base/c.ts", list_byte_of_string "CCC");
   ("base/k1", repeat x00 16);
   ("base/e.ts", list_byte_of_string "0123456789ABCDEF")].

Definition toy_net : list (string * bytes) :=
  [("http://cdn/a.ts", list_byte_of_string "AAA")].

Fixpoint lookup (name : string) (table : list (string * bytes)) : option bytes :=
  match table with
  | [] => None
  | (n, b) :: table' => if String.eqb n name then Some b else lookup name table'
  end.

Fixpoint has_char (c : ascii) (s : string) : bool :=
  match s with
  | EmptyString => false
  | String c' rest => Ascii.eqb c' c || has_char c rest
  end.

Definition toy_urlparse (p : option string) : result ParseResult :=
  match p with
  | None => Ok (mkParseResult "" "" "" "" "" "")
  | Some s =>
      if String.prefix "http://" s
      then
        let rest := String.substring 7 (String.length s - 7) s in
        if xorb (has_char "[" rest) (has_char "]" rest)
        then Raise (ValueError "Invalid IPv6 URL")
        else Ok (mkParseResult "http" rest "" "" "" "")
      else Ok (mkParseResult "" "" s "" "" "")
  end.

Definition toy_urlopen_read (p : option string) (w : nat) : result bytes * nat :=
  match p with
  | None => (Raise (OtherError "AttributeError" "no such resource"), S w)
  | Some s =>
      match lookup s toy_net with
      | Some b => (Ok b, S w)
      | None => (Raise (OtherError "URLError" s), S w)
      end
  end.

Definition toy_open_rb_read (p : option string) (w : nat) : result bytes * nat :=
  match p with
  | None => (Raise (OtherError "TypeError" "expected str, not NoneType"), S w)
  | Some s =>
      match lookup s toy_files with
      | Some b => (Ok b, S w)
      | None => (Raise (OtherError "FileNotFoundError" s), S w)
      end
  end.

Definition toy_cbc_decrypt (key iv data : bytes) : result bytes :=
  if (List.length data mod 16 =? 0)%nat then Ok data
  else Raise (ValueError "Data must be padded to 16 byte boundary in CBC mode").

(** The file object 0 is a text-mode sink, which takes no bytes; any other
    one is a binary sink. *)
Definition toy_output_write (output : file_object) (content : bytes) (w : nat)
  : result unit * nat :=
  if Nat.eqb output 0
  then (Raise (TypeError "write() argument must be str, not bytes"), w)
  else (Ok tt, S w).

Definition toy_env : Env :=
  mkEnv nat toy_loads toy_urlparse toy_urlopen_read toy_open_rb_read toy_cbc_decrypt
    toy_output_write.

Definition toy_start : State toy_env := mkState (E:=toy_env) 0%nat [].

(** ** Further observations of the script *)

(** The URI of an entry of [keys], when the entry is a key and has one. *)
Definition entry_uri (k : option Key.t) : option string :=
  match k with
  | Some k => Key.uri k
  | None => None
  end.

(** The first URI among entries of [keys], in order. *)
Fixpoint first_uri (l : list (option Key.t)) : option string :=
  match l with
  | [] => None
  | k :: l' =>
      match entry_uri k with
      | Some u => Some u
      | None => first_uri l'
      end
  end.

(** ["/".join(u.split("/")[:-1])], the expression of line 108. *)
Definition parent_path (u : string) : string :=
  String.concat "/" (removelast (str_split "/" u)).

(** The last component, [u.split("/")[-1]]. *)
Definition last_component (u : string) : string :=
  List.last (str_split "/" u) EmptyString.

Fixpoint has_slash (s : string) : bool :=
  match s with
  | EmptyString => false
  | String c rest => Ascii.eqb c "/" || has_slash rest
  end.

(** The locations, the keys, the inputs and the successful outputs of the
    fetches and decryptions of a trace, in order. *)
Definition read_locations (t : list event) : list (option string) :=
  flat_map (fun ev =>
              match ev with
              | EvUrlopen p _ | EvOpen p _ => [p]
              | _ => []
              end) t.

Definition decrypt_keys (t : list event) : list bytes :=
  flat_map (fun ev =>
              match ev with
              | EvDecrypt c _ _ => [cipher_key c]
              | _ => []
              end) t.

Definition decrypt_inputs (t : list event) : list bytes :=
  flat_map (fun ev =>
              match ev with
              | EvDecrypt _ data _ => [data]
              | _ => []
              end) t.

Definition decrypt_outputs (t : list event) : list bytes :=
  flat_map (fun ev =>
              match ev with
              | EvDecrypt _ _ (inr plain) => [plain]
              | _ => []
              end) t.

(** [ev] is a fetch at [p] that returned the bytes [k]. *)
Definition is_fetch_of (p : option string) (k : bytes) (ev : event) : Prop :=
  ev = EvUrlopen p (inr k) \/ ev = EvOpen p (inr k).


Definition is_print (ev : event) : bool :=
  match ev with
  | EvPrint _ => true
  | _ => false
  end.

Definition is_write (ev : event) : bool :=
  match ev with
  | EvWrite _ _ _ => true
  | _ => false
  end.

(** Every segment is marked AES-128. *)
Definition all_aes128 (segs : list Segment.t) : bool := forallb is_aes128 segs.

(** A second stub parser, for playlists with missing pieces. *)
Definition playlist_keyless : M3U8.t :=
  M3U8.mk 1 [Some key1]
    [Segment.mk "a.ts" (Some key_none); Segment.mk "b.ts" None;
     Segment.mk "c.ts" (Some key_none)].

(** What the parser gives for a playlist without any [#EXT-X-KEY] line. *)
Definition playlist_nokey : M3U8.t :=
  M3U8.mk 0 [None]
    [Segment.mk "a.ts" None; Segment.mk "b.ts" None; Segment.mk "c.ts" None].

Definition playlist_late_key : M3U8.t :=
  M3U8.mk 3 [None; Some key_none; Some (Key.mk "AES-128" (Some "http://cdn/keys/k.bin"))]
    [Segment.mk "a.ts" (Some key_none)].

Definition playlist_mixed : M3U8.t :=
  M3U8.mk 1 [Some key1]
    [Segment.mk "a.ts" (Some key_none); Segment.mk "e.ts" (Some key1);
     Segment.mk "b.ts" (Some key_none); Segment.mk "e.ts" (Some key1)].

Definition toy_loads2 (input : string) : result M3U8.t :=
  if String.eqb input "keyless" then Ok playlist_keyless
  else if String.eqb input "nokey" then Ok playlist_nokey
  else if String.eqb input "ms0" then Ok playlist_ms0
  else if String.eqb input "ms2" then Ok playlist_ms2
  else if String.eqb input "latekey" then Ok playlist_late_key
  else if String.eqb input "mixed" then Ok playlist_mixed
  else toy_loads input.

Definition toy_env2 : Env :=
  mkEnv nat toy_loads2 toy_urlparse toy_urlopen_read toy_open_rb_read toy_cbc_decrypt
    toy_output_write.

Definition toy_start2 : State toy_env2 := mkState (E:=toy_env2) 0%nat [].

(** * Proofs

    ** Hexadecimal digits and big-endian bytes *)

Lemma hexval_hexchar d : 0 <= d < 16 -> hexval (hexchar d) = Some d.
Proof.
  intros H.
  assert (Hc : d = 0 \/ d = 1 \/ d = 2 \/ d = 3 \/ d = 4 \/ d = 5 \/ d = 6 \/ d = 7 \/
               d = 8 \/ d = 9 \/ d = 10 \/ d = 11 \/ d = 12 \/ d = 13 \/ d = 14 \/ d = 15)
    by lia.
  repeat (destruct Hc as [-> | Hc]; [reflexivity|]). subst d. reflexivity.
Qed.

Lemma hexchar_ascii d : 0 <= d < 16 -> is_ascii_char (hexchar d) = true.
Proof.
  intros H.
  assert (Hc : d = 0 \/ d = 1 \/ d = 2 \/ d = 3 \/ d = 4 \/ d = 5 \/ d = 6 \/ d = 7 \/
               d = 8 \/ d = 9 \/ d = 10 \/ d = 11 \/ d = 12 \/ d = 13 \/ d = 14 \/ d = 15)
    by lia.
  repeat (destruct Hc as [-> | Hc]; [reflexivity|]). subst d. reflexivity.
Qed.

Lemma nibble_range n i : 0 <= nibble n i < 16.
Proof. unfold nibble. apply Z.mod_pos_bound. lia. Qed.

Lemma hex_digits_S n w :
  hex_digits n (S w) = hexchar (nibble n w) :: hex_digits n w.
Proof.
  unfold hex_digits. rewrite seq_S, rev_app_distr. reflexivity.
Qed.

Lemma hex_digits_length n w : List.length (hex_digits n w) = w.
Proof.
  unfold hex_digits. now rewrite length_map, length_rev, length_seq.
Qed.

Lemma hex_digits_ascii n w : forallb is_ascii_char (hex_digits n w) = true.
Proof.
  induction w as [|w IH]; [reflexivity|].
  rewrite hex_digits_S. simpl. rewrite IH, hexchar_ascii by apply nibble_range. reflexivity.
Qed.

Lemma int_to_bytes_big_S k n :
  int_to_bytes_big (S k) n =
  byte_of_Z ((n / 256 ^ Z.of_nat k) mod 256) :: int_to_bytes_big k n.
Proof.
  unfold int_to_bytes_big. rewrite seq_S, rev_app_distr. reflexivity.
Qed.

Lemma int_to_bytes_big_length k n : List.length (int_to_bytes_big k n) = k.
Proof.
  unfold int_to_bytes_big. now rewrite length_map, length_rev, length_seq.
Qed.

Lemma nibble_pair n k :
  16 * nibble n (S (2 * k)) + nibble n (2 * k) = (n / 256 ^ Z.of_nat k) mod 256.
Proof.
  unfold nibble.
  replace (Z.of_nat (S (2 * k))) with (Z.of_nat (2 * k) + 1) by lia.
  replace (Z.of_nat (2 * k)) with (2 * Z.of_nat k) by lia.
  rewrite Z.pow_add_r, Z.pow_1_r by lia.
  rewrite Z.pow_mul_r by lia. change (16 ^ 2) with 256.
  set (q := 256 ^ Z.of_nat k).
  assert (Hq : 0 < q) by (apply Z.pow_pos_nonneg; lia).
  rewrite <- Z.div_div by lia.
  set (a := n / q).
  replace (a mod 256) with (a mod (16 * 16)) by reflexivity.
  rewrite Z.rem_mul_r by lia. lia.
Qed.

Lemma a2b_pairs_hex_digits n k :
  a2b_pairs (hex_digits n (2 * k)) = Ok (int_to_bytes_big k n).
Proof.
  induction k as [|k IH]; [reflexivity|].
  replace (2 * S k)%nat with (S (S (2 * k))) by lia.
  rewrite !hex_digits_S. cbn [a2b_pairs].
  rewrite !hexval_hexchar by apply nibble_range.
  rewrite IH. rewrite int_to_bytes_big_S, nibble_pair. reflexivity.
Qed.

Lemma Z_of_byte_of_Z v : 0 <= v < 256 -> Z_of_byte (byte_of_Z v) = v.
Proof.
  intros H. unfold Z_of_byte, byte_of_Z.
  destruct (Byte.of_N (Z.to_N v)) eqn:Hb.
  - apply Byte.to_of_N in Hb. rewrite Hb. lia.
  - apply Byte.of_N_None_iff in Hb. lia.
Qed.

Lemma fold_be_acc bs acc :
  fold_left (fun a b => 256 * a + Z_of_byte b) bs acc =
  acc * 256 ^ Z.of_nat (List.length bs) + int_from_bytes_big bs.
Proof.
  unfold int_from_bytes_big. revert acc.
  induction bs as [|b bs IH]; intros acc.
  - simpl. lia.
  - cbn [fold_left List.length]. rewrite IH. rewrite (IH (256 * 0 + Z_of_byte b)).
    rewrite Nat2Z.inj_succ, Z.pow_succ_r by lia. lia.
Qed.

Lemma int_from_to_bytes_big k n :
  int_from_bytes_big (int_to_bytes_big k n) = n mod 256 ^ Z.of_nat k.
Proof.
  induction k as [|k IH].
  - simpl. now rewrite Z.mod_1_r.
  - rewrite int_to_bytes_big_S. unfold int_from_bytes_big. cbn [fold_left].
    rewrite fold_be_acc, IH, int_to_bytes_big_length.
    rewrite Z_of_byte_of_Z by (apply Z.mod_pos_bound; lia).
    rewrite Nat2Z.inj_succ, Z.pow_succ_r by lia.
    set (q := 256 ^ Z.of_nat k).
    assert (Hq : 0 < q) by (apply Z.pow_pos_nonneg; lia).
    rewrite (Z.mul_comm 256 q). rewrite Z.rem_mul_r by lia. lia.
Qed.

Lemma hex_len_le n : 0 <= n < 2 ^ 128 -> (hex_len n <= 32)%nat.
Proof.
  intros [H0 H1]. unfold hex_len. destruct (Z.eqb_spec n 0); [lia|].
  assert (Z.log2 n < 128) by (apply Z.log2_lt_pow2; lia).
  assert (0 <= Z.log2 n) by apply Z.log2_nonneg.
  assert (Z.log2 n / 4 < 32) by (apply Z.div_lt_upper_bound; lia).
  assert (0 <= Z.log2 n / 4) by (apply Z.div_pos; lia).
  lia.
Qed.

Lemma hex_len_gt n : 2 ^ 128 <= n -> (32 < hex_len n)%nat.
Proof.
  intros H. unfold hex_len. destruct (Z.eqb_spec n 0); [lia|].
  assert (128 <= Z.log2 n) by (apply Z.log2_le_pow2; lia).
  assert (32 <= Z.log2 n / 4) by (apply Z.div_le_lower_bound; lia).
  lia.
Qed.

Lemma hex_len_pos n : (1 <= hex_len n)%nat.
Proof.
  unfold hex_len. destruct (Z.eqb_spec n 0); [lia|].
  assert (0 <= Z.log2 n) by apply Z.log2_nonneg.
  assert (0 <= Z.log2 n / 4) by (apply Z.div_pos; lia). lia.
Qed.

Lemma hex_len_bound n : 0 <= n -> n < 16 ^ Z.of_nat (hex_len n).
Proof.
  intros H. unfold hex_len. destruct (Z.eqb_spec n 0); [subst; reflexivity|].
  assert (Hl : 0 <= Z.log2 n) by apply Z.log2_nonneg.
  assert (Hd : 0 <= Z.log2 n / 4) by (apply Z.div_pos; lia).
  rewrite Z2Nat.id by lia.
  destruct (Z.log2_spec n) as [_ Hu]; [lia|].
  eapply Z.lt_le_trans; [exact Hu|].
  change 16 with (2 ^ 4). rewrite <- Z.pow_mul_r by lia.
  apply Z.pow_le_mono_r; [lia|].
  pose proof (Z.mul_succ_div_gt (Z.log2 n) 4). lia.
Qed.

Lemma a2b_hex_hex_digits n w :
  a2b_hex (string_of_list_ascii (hex_digits n w)) =
  if Nat.odd w then Raise (binascii_Error "Odd-length string")
  else Ok (int_to_bytes_big (Nat.div2 w) n).
Proof.
  unfold a2b_hex. rewrite list_ascii_of_string_of_list_ascii.
  rewrite hex_digits_ascii, hex_digits_length. cbn [negb].
  destruct (Nat.odd w) eqn:Hodd; [reflexivity|].
  assert (Hw : w = (2 * Nat.div2 w)%nat).
  { pose proof (Nat.div2_odd w) as H. rewrite Hodd in H. simpl in H. lia. }
  rewrite Hw at 1. apply a2b_pairs_hex_digits.
Qed.

Lemma derive_iv_nonneg n :
  0 <= n ->
  derive_iv n =
  if Nat.odd (Nat.max 32 (hex_len n)) then Raise (binascii_Error "Odd-length string")
  else Ok (int_to_bytes_big (Nat.div2 (Nat.max 32 (hex_len n))) n).
Proof.
  intros H. unfold derive_iv, format_032x.
  destruct (Z.ltb_spec n 0); [lia|]. apply a2b_hex_hex_digits.
Qed.

Lemma derive_iv_in_range n :
  0 <= n < 2 ^ 128 -> derive_iv n = Ok (int_to_bytes_big 16 n).
Proof.
  intros H. rewrite derive_iv_nonneg by lia.
  pose proof (hex_len_le n H).
  replace (Nat.max 32 (hex_len n)) with 32%nat by lia. reflexivity.
Qed.

Lemma hexval_minus : hexval "-" = None.
Proof. reflexivity. Qed.

Lemma derive_iv_negative n :
  n < 0 -> exists msg, derive_iv n = Raise (binascii_Error msg).
Proof.
  intros H. unfold derive_iv, format_032x.
  destruct (Z.ltb_spec n 0); [|lia].
  unfold a2b_hex. cbn [list_ascii_of_string].
  rewrite list_ascii_of_string_of_list_ascii.
  cbn [forallb]. rewrite hex_digits_ascii.
  replace (is_ascii_char "-") with true by reflexivity. cbn [andb negb].
  destruct (Nat.odd _); [eexists; reflexivity|].
  remember (Nat.max 31 (hex_len (- n))) as w eqn:Hw.
  destruct w as [|w]; [lia|]. rewrite hex_digits_S.
  cbn [a2b_pairs]. rewrite hexval_minus. eexists; reflexivity.
Qed.

Lemma derive_iv_Ok n iv :
  derive_iv n = Ok iv ->
  0 <= n /\ iv = int_to_bytes_big (Nat.div2 (Nat.max 32 (hex_len n))) n /\
  Nat.odd (Nat.max 32 (hex_len n)) = false.
Proof.
  intros H. destruct (Z.ltb_spec n 0) as [Hn|Hn].
  - destruct (derive_iv_negative n Hn) as [msg Hm]. rewrite Hm in H. discriminate.
  - rewrite derive_iv_nonneg in H by lia.
    destruct (Nat.odd _); [discriminate|]. inversion H. auto.
Qed.

Lemma derive_iv_value n iv :
  derive_iv n = Ok iv -> int_from_bytes_big iv = n.
Proof.
  intros H. destruct (derive_iv_Ok n iv H) as (Hn & -> & Hodd).
  rewrite int_from_to_bytes_big. apply Z.mod_small. split; [lia|].
  set (w := Nat.max 32 (hex_len n)) in *.
  assert (Hw : w = (2 * Nat.div2 w)%nat).
  { pose proof (Nat.div2_odd w) as H'. rewrite Hodd in H'. simpl in H'. lia. }
  eapply Z.lt_le_trans; [apply hex_len_bound; lia|].
  change 256 with (16 ^ 2). rewrite <- Z.pow_mul_r by lia.
  apply Z.pow_le_mono_r; [lia|]. lia.
Qed.

Lemma derive_iv_len16 n iv :
  derive_iv n = Ok iv -> List.length iv = 16%nat -> iv = int_to_bytes_big 16 n.
Proof.
  intros H Hlen. destruct (derive_iv_Ok n iv H) as (Hn & -> & Hodd).
  rewrite int_to_bytes_big_length in Hlen. now rewrite Hlen.
Qed.

Lemma derive_iv_overflow_length n iv :
  2 ^ 128 <= n -> derive_iv n = Ok iv -> (16 < List.length iv)%nat.
Proof.
  intros Hn H. destruct (derive_iv_Ok n iv H) as (_ & -> & Hodd).
  rewrite int_to_bytes_big_length.
  pose proof (hex_len_gt n Hn).
  set (w := Nat.max 32 (hex_len n)) in *.
  pose proof (Nat.div2_odd w) as H'. rewrite Hodd in H'. simpl in H'. lia.
Qed.

(** ** Rules for runs *)

Section Runs.
Variable E : Env.

Lemma runs_ret {A} (a : A) (post : result A -> list event -> Prop) :
  post (Ok a) [] -> runs (E:=E) (ret a) post.
Proof. intros H st. exists []. simpl. now rewrite app_nil_r. Qed.

Lemma runs_lift {A} (r : result A) (post : result A -> list event -> Prop) :
  post r [] -> runs (E:=E) (lift r) post.
Proof. intros H st. exists []. simpl. now rewrite app_nil_r. Qed.

Lemma runs_bind {A B} (c : M E A) (f : A -> M E B) pre post :
  runs c pre ->
  (forall e new, pre (inl e) new -> post (inl e) new) ->
  (forall a new1, pre (inr a) new1 ->
                  runs (f a) (fun r new2 => post r (new1 ++ new2))) ->
  runs (bind c f) post.
Proof.
  intros Hc He Hf st. unfold bind.
  destruct (Hc st) as (new1 & Ht & Hp).
  destruct (c st) as [[e|a] st1]; simpl in *.
  - exists new1. auto.
  - destruct (Hf a new1 Hp st1) as (new2 & Ht2 & Hp2).
    exists (new1 ++ new2). rewrite Ht2, Ht, app_assoc. auto.
Qed.

Lemma runs_weaken {A} (c : M E A) (pre post : result A -> list event -> Prop) :
  runs c pre -> (forall r new, pre r new -> post r new) -> runs c post.
Proof.
  intros Hc H st. destruct (Hc st) as (new & Ht & Hp). exists new. auto.
Qed.

Lemma is_valid_default p :
  is_valid E p None =
  match urlparse E p with
  | inl e => inl e
  | inr token => Ok (truthy_str (pr_scheme token) && truthy_str (pr_netloc token))
  end.
Proof.
  unfold is_valid, rbind. destruct (urlparse E p); [reflexivity|].
  simpl. now rewrite andb_true_r.
Qed.

Lemma read_bytes_runs p : runs (read_bytes E p true) (read_post E p).
Proof.
  intros st.
  destruct (is_valid E p None) as [e|[|]] eqn:Hv.
  - exists []. rewrite app_nil_r.
    assert (Hr : read_bytes E p true st = (inl e, st)).
    { unfold read_bytes, bind, lift. now rewrite Hv. }
    rewrite Hr. split; [reflexivity|]. simpl.
    apply (read_unparsed E p e st); [|now rewrite Hr].
    rewrite is_valid_default in Hv. destruct (urlparse E p); now inversion Hv.
  - exists [EvUrlopen p (fst (urlopen_read E p (world st)))].
    assert (Hr : read_bytes E p true st =
                 (fst (urlopen_read E p (world st)),
                  mkState (snd (urlopen_read E p (world st)))
                    (trace st ++ [EvUrlopen p (fst (urlopen_read E p (world st)))]))).
    { unfold read_bytes, bind, lift. rewrite Hv. simpl. unfold urlopen.
      now destruct (urlopen_read E p (world st)). }
    rewrite Hr. split; [reflexivity|]. simpl.
    apply (read_network E p _ st); auto. now rewrite Hr.
  - exists [EvOpen p (fst (open_rb_read E p (world st)))].
    assert (Hr : read_bytes E p true st =
                 (fst (open_rb_read E p (world st)),
                  mkState (snd (open_rb_read E p (world st)))
                    (trace st ++ [EvOpen p (fst (open_rb_read E p (world st)))]))).
    { unfold read_bytes, bind, lift. rewrite Hv. unfold open_rb.
      now destruct (open_rb_read E p (world st)). }
    rewrite Hr. split; [reflexivity|]. simpl.
    apply (read_local E p _ st); auto. now rewrite Hr.
Qed.
End Runs.

(** ** One iteration of the loop *)

Section Body.
Variable E : Env.

Lemma truthy_opt_bytes_Some key :
  truthy_opt_bytes key = true ->
  exists k, key = Some k.
Proof. destruct key as [k|]; [eauto|discriminate]. Qed.

Lemma select_decrypt_func_runs ms i seg key :
  runs (select_decrypt_func E ms i seg key) (select_post E ms i seg key).
Proof.
  intros st. unfold select_decrypt_func, bind, lift, segment_key_method.
  destruct (Segment.key seg) as [k0|] eqn:Hk.
  2: { exists []. simpl. rewrite app_nil_r. split; [reflexivity|]. now constructor. }
  cbn [Ok].
  destruct (String.eqb (Key.method k0) "AES-128") eqn:Hm.
  2: { exists []. simpl. rewrite app_nil_r. split; [reflexivity|].
       apply select_identity; [congruence|]. unfold is_aes128. now rewrite Hk. }
  assert (Haes : is_aes128 seg = true) by (unfold is_aes128; now rewrite Hk).
  destruct (truthy_opt_bytes key) eqn:Htr; cbn [negb].
  - destruct (truthy_opt_bytes_Some key Htr) as [k ->].
    assert (Hsrc : key_source E seg (Some k) k []) by now constructor.
    unfold ret, Ok; cbv beta iota.
    destruct (derive_iv (Z.of_nat i + ms)) as [e|iv] eqn:Hiv.
    { exists []. simpl. rewrite app_nil_r. split; [reflexivity|].
      eapply select_setup_fails; eauto. now rewrite Hiv. }
    destruct (AES_new k iv) as [e|c] eqn:Hc.
    { exists []. simpl. rewrite app_nil_r. split; [reflexivity|].
      eapply select_setup_fails; eauto. rewrite Hiv. exact Hc. }
    exists []. simpl. rewrite app_nil_r. split; [reflexivity|].
    eapply select_cipher; eauto.
  - unfold segment_key_uri. rewrite Hk. cbn [Ok].
    assert (Hu : Key.uri k0 = key_uri_of seg) by (unfold key_uri_of; now rewrite Hk).
    rewrite Hu.
    destruct (read_bytes_runs E (key_uri_of seg) st) as (new & Ht & Hp).
    destruct (read_bytes E (key_uri_of seg) true st) as [[e|k] st1]; cbn [fst snd] in *.
    { exists new. split; [exact Ht|]. now apply select_fetch_fails. }
    assert (Hsrc : key_source E seg key k new) by now constructor.
    destruct (derive_iv (Z.of_nat i + ms)) as [e|iv] eqn:Hiv.
    { exists new. split; [exact Ht|].
      eapply select_setup_fails; eauto. now rewrite Hiv. }
    destruct (AES_new k iv) as [e|c] eqn:Hc.
    { exists new. split; [exact Ht|].
      eapply select_setup_fails; eauto. rewrite Hiv. exact Hc. }
    exists new. split; [exact Ht|]. eapply select_cipher; eauto.
Qed.

Lemma cipher_decrypt_run c data st :
  cipher_decrypt E c data st =
  (cbc_decrypt E (cipher_key c) (cipher_iv c) data,
   mkState (world st)
     (trace st ++ [EvDecrypt c data (cbc_decrypt E (cipher_key c) (cipher_iv c) data)])).
Proof. reflexivity. Qed.

Lemma segment_body_runs ms host i seg key ts :
  runs (segment_body E ms host i seg key ts) (body_post E ms host i seg key ts).
Proof.
  unfold segment_body.
  eapply runs_bind; [apply select_decrypt_func_runs| |].
  - intros e new H. now apply body_select_fails.
  - intros [key' c] new1 Hsel.
    eapply runs_bind; [apply read_bytes_runs| |].
    + intros e new2 H. eapply body_read_fails; eauto.
    + intros data new2 Hread st. destruct c as [c|].
      * unfold bind, decrypt_func. rewrite cipher_decrypt_run. cbn [fst snd trace].
        pose proof (body_decrypt E ms host i seg key ts key' c data _ new1 new2
                      Hsel Hread eq_refl) as Hb.
        destruct (cbc_decrypt E (cipher_key c) (cipher_iv c) data) as [e|plain].
        -- exists [EvDecrypt c data (inl e)]. split; [reflexivity|exact Hb].
        -- exists [EvDecrypt c data (inr plain)]. split; [reflexivity|exact Hb].
      * exists []. simpl. rewrite !app_nil_r. split; [reflexivity|].
        eapply body_identity; eauto.
Qed.
End Body.

(** ** The calls of one iteration *)

Lemma is_prefix_nil {A} (l : list A) : is_prefix [] l.
Proof. now exists l. Qed.

Lemma is_prefix_refl {A} (l : list A) : is_prefix l l.
Proof. exists []. now rewrite app_nil_r. Qed.

Lemma is_prefix_app_r {A} (l1 l2 l3 : list A) :
  is_prefix l1 l2 -> is_prefix l1 (l2 ++ l3).
Proof. intros [t ->]. exists (t ++ l3). now rewrite app_assoc. Qed.

Lemma is_prefix_app_l {A} (l1 l2 l3 : list A) :
  is_prefix l2 l3 -> is_prefix (l1 ++ l2) (l1 ++ l3).
Proof. intros [t ->]. exists t. now rewrite app_assoc. Qed.

Lemma is_prefix_flat_map {A B} (f : A -> list B) (l1 l2 : list A) :
  is_prefix l1 l2 -> is_prefix (flat_map f l1) (flat_map f l2).
Proof. intros [t ->]. exists (flat_map f t). apply flat_map_app. Qed.

Create HintDb prefix.
#[local] Hint Resolve is_prefix_nil is_prefix_refl is_prefix_app_r is_prefix_app_l : prefix.

Lemma AES_new_Ok k iv c :
  AES_new k iv = Ok c ->
  valid_key_len k = true /\ List.length iv = 16%nat /\ c = mkCipher k iv.
Proof.
  unfold AES_new. destruct (valid_key_len k); [|discriminate]. cbn [negb].
  destruct (Nat.eqb_spec (List.length iv) 16); [|discriminate]. cbn [negb].
  intros H. inversion H. auto.
Qed.

Lemma AES_new_error k iv e : AES_new k iv = inl e -> is_ValueError e = true.
Proof.
  unfold AES_new. destruct (negb (valid_key_len k)).
  - intros H. inversion H. reflexivity.
  - destruct (negb _); intros H; inversion H. reflexivity.
Qed.

Lemma valid_key_len_truthy k :
  valid_key_len k = true -> truthy_opt_bytes (Some k) = true.
Proof. destruct k; [discriminate|reflexivity]. Qed.

Lemma derive_iv_error n e : derive_iv n = inl e -> is_ValueError e = true.
Proof.
  intros H. destruct (Z.ltb_spec n 0) as [Hn|Hn].
  - destruct (derive_iv_negative n Hn) as [msg Hm]. rewrite Hm in H.
    inversion H. reflexivity.
  - rewrite derive_iv_nonneg in H by lia.
    destruct (Nat.odd _); inversion H. reflexivity.
Qed.

Section Shapes.
Variable E : Env.

Lemma read_post_prefix p r new :
  read_post E p r new -> is_prefix (map call_of_event new) [CRead p].
Proof. intros H. destruct H; cbn; auto with prefix. Qed.

Lemma read_post_Ok p b new :
  read_post E p (inr b) new ->
  exists ev, new = [ev] /\ call_of_event ev = CRead p /\
             fetched [ev] = [b] /\ is_read ev = true /\ decrypt_ivs [ev] = [].
Proof.
  intros H. inversion H; subst; eexists; repeat split; reflexivity.
Qed.

Lemma read_post_replay p r new :
  read_post E p r new -> exists st, fst (read_bytes E p true st) = r.
Proof. intros H. destruct H; eauto. Qed.

Lemma segment_plan_parts ms host i hk seg :
  segment_plan ms host i hk seg =
  key_plan hk seg ++
  [SegRead (Some (os_path_join host (Segment.uri seg)))] ++
  (if is_aes128 seg
   then [Decrypt (int_to_bytes_big 16 (Z.of_nat i + ms))] else []).
Proof.
  unfold segment_plan, key_plan. destruct (is_aes128 seg), hk; reflexivity.
Qed.

Lemma key_source_shape seg key k new :
  key_source E seg key k new -> is_aes128 seg = true ->
  map call_of_event new = map call_of_step (key_plan (truthy_opt_bytes key) seg) /\
  decrypt_ivs new = [] /\
  (truthy_opt_bytes key = true -> key = Some k /\ new = []).
Proof.
  intros H Haes. unfold key_plan. rewrite Haes. destruct H as [k Hk Htr | k new Htr Hr].
  - rewrite Htr. cbn. auto.
  - rewrite Htr. destruct (read_post_Ok _ _ _ Hr) as (ev & -> & Hc & _ & _ & Hd).
    cbn. rewrite Hc. split; [reflexivity|]. split; [exact Hd|]. discriminate.
Qed.

Lemma select_post_prefix ms i seg key r new :
  select_post E ms i seg key r new ->
  is_prefix (map call_of_event new)
    (map call_of_step (key_plan (truthy_opt_bytes key) seg)).
Proof.
  intros H. destruct H as [msg Hk | Hk Haes | e new Haes Htr Hr
                          | k e new Haes Hsrc _ | k iv c new Haes Hsrc _ _].
  - apply is_prefix_nil.
  - apply is_prefix_nil.
  - unfold key_plan. rewrite Haes, Htr. cbn.
    apply (read_post_prefix _ _ _ Hr).
  - destruct (key_source_shape _ _ _ _ Hsrc Haes) as (-> & _). apply is_prefix_refl.
  - destruct (key_source_shape _ _ _ _ Hsrc Haes) as (-> & _). apply is_prefix_refl.
Qed.

Lemma select_post_Ok ms i seg key key' c new :
  select_post E ms i seg key (inr (key', c)) new ->
  map call_of_event new = map call_of_step (key_plan (truthy_opt_bytes key) seg) /\
  decrypt_ivs new = [] /\
  truthy_opt_bytes key' = truthy_opt_bytes key || is_aes128 seg /\
  match c with
  | Some cc => is_aes128 seg = true /\
               cipher_iv cc = int_to_bytes_big 16 (Z.of_nat i + ms)
  | None => is_aes128 seg = false /\ key' = key /\ new = []
  end.
Proof.
  intros H. inversion H as [ | Hk Haes | | | k iv cc new' Haes Hsrc Hiv Hc]; subst.
  - unfold key_plan. rewrite Haes, orb_false_r. cbn. repeat split; auto.
  - destruct (key_source_shape _ _ _ _ Hsrc Haes) as (Hsh & Hd & _).
    destruct (AES_new_Ok _ _ _ Hc) as (Hv & Hlen & ->).
    rewrite Haes, orb_true_r, (valid_key_len_truthy _ Hv). cbn [cipher_iv].
    repeat split; auto. now apply derive_iv_len16.
Qed.

Lemma body_post_prefix ms host i seg key ts r new :
  body_post E ms host i seg key ts r new ->
  is_prefix (map call_of_event new)
    (map call_of_step (segment_plan ms host i (truthy_opt_bytes key) seg)).
Proof.
  intros H. rewrite segment_plan_parts, !map_app.
  destruct H as [e new Hs | key' c e n1 n2 Hs Hr | key' data n1 n2 Hs Hr
                | key' c data r n1 n2 Hs Hr Hd].
  - apply is_prefix_app_r. eapply select_post_prefix; eauto.
  - destruct (select_post_Ok _ _ _ _ _ _ _ Hs) as (Hsh & _).
    rewrite map_app, Hsh. apply is_prefix_app_l, is_prefix_app_r.
    apply (read_post_prefix _ _ _ Hr).
  - destruct (select_post_Ok _ _ _ _ _ _ _ Hs) as (Hsh & _ & _ & Haes & _).
    destruct (read_post_Ok _ _ _ Hr) as (ev & -> & Hc & _).
    rewrite map_app, Hsh, Haes. cbn. rewrite Hc. apply is_prefix_refl.
  - destruct (select_post_Ok _ _ _ _ _ _ _ Hs) as (Hsh & _ & _ & Haes & Hiv).
    destruct (read_post_Ok _ _ _ Hr) as (ev & -> & Hc & _).
    rewrite !map_app, Hsh, Haes. cbn. rewrite Hc, Hiv. apply is_prefix_refl.
Qed.

Lemma body_post_Ok ms host i seg key ts key' ts' new :
  body_post E ms host i seg key ts (inr (key', ts')) new ->
  map call_of_event new =
    map call_of_step (segment_plan ms host i (truthy_opt_bytes key) seg) /\
  truthy_opt_bytes key' = truthy_opt_bytes key || is_aes128 seg /\
  (is_aes128 seg = false ->
   key' = key /\ exists ev data, new = [ev] /\ is_read ev = true /\
                                 fetched [ev] = [data] /\ ts' = ts ++ data).
Proof.
  intros H. rewrite segment_plan_parts, !map_app.
  inversion H as [ | | k' data n1 n2 Hs Hr
                 | k' c data r n1 n2 Hs Hr Hd Hres]; subst.
  - destruct (select_post_Ok _ _ _ _ _ _ _ Hs) as (Hsh & _ & Htr & Haes & -> & ->).
    destruct (read_post_Ok _ _ _ Hr) as (ev & -> & Hc & Hf & Hrd & _).
    rewrite Haes. cbn. rewrite Hc. unfold key_plan. rewrite Haes. cbn.
    split; [reflexivity|]. split; [now rewrite orb_false_r|].
    intros _. split; [reflexivity|]. eauto 10.
  - destruct (select_post_Ok _ _ _ _ _ _ _ Hs) as (Hsh & _ & Htr & Haes & Hiv).
    destruct (read_post_Ok _ _ _ Hr) as (ev & -> & Hc & _).
    destruct (cbc_decrypt E (cipher_key c) (cipher_iv c) data) as [e|plain];
      [discriminate|].
    inversion Hres; subst.
    rewrite !map_app, Hsh, Haes. cbn. rewrite Hc, Hiv.
    split; [reflexivity|]. split; [rewrite Htr, Haes; reflexivity|]. intros; discriminate.
Qed.
End Shapes.

(** ** The loop *)

Lemma call_plan_plain ms host segs : forall i hk,
  unencrypted segs = true ->
  call_plan ms host i hk segs =
  map (fun s => SegRead (Some (os_path_join host (Segment.uri s)))) segs.
Proof.
  induction segs as [|s segs IH]; intros i hk H; [reflexivity|].
  cbn in H. apply andb_true_iff in H as [Hs H]. apply negb_true_iff in Hs.
  cbn [call_plan map]. unfold segment_plan. rewrite Hs, orb_false_r.
  cbn. now rewrite IH.
Qed.

Lemma call_plan_key_reads ms host segs : forall i hk,
  filter is_key_read (call_plan ms host i hk segs) =
  if hk then []
  else match find is_aes128 segs with
       | Some s => [KeyRead (key_uri_of s)]
       | None => []
       end.
Proof.
  induction segs as [|s segs IH]; intros i hk; cbn [call_plan find].
  - now destruct hk.
  - rewrite filter_app, IH. unfold segment_plan.
    destruct (is_aes128 s), hk; reflexivity.
Qed.

Lemma call_plan_ivs ms host segs : forall i hk,
  flat_map (fun s => match s with Decrypt iv => [iv] | _ => [] end)
    (call_plan ms host i hk segs) =
  map (fun j => int_to_bytes_big 16 (Z.of_nat j + ms)) (aes_indices i segs).
Proof.
  induction segs as [|s segs IH]; intros i hk; cbn [call_plan aes_indices];
    [reflexivity|].
  rewrite flat_map_app, map_app, IH. f_equal.
  unfold segment_plan. destruct (is_aes128 s), hk; reflexivity.
Qed.

Lemma decrypt_ivs_calls (t : list event) :
  decrypt_ivs t =
  flat_map (fun c => match c with CDecrypt iv => [iv] | _ => [] end)
    (map call_of_event t).
Proof.
  induction t as [|ev t IH]; [reflexivity|].
  cbn. rewrite <- IH. now destruct ev.
Qed.

Lemma step_ivs_calls (pl : list step) :
  flat_map (fun s => match s with Decrypt iv => [iv] | _ => [] end) pl =
  flat_map (fun c => match c with CDecrypt iv => [iv] | _ => [] end)
    (map call_of_step pl).
Proof.
  induction pl as [|s pl IH]; [reflexivity|].
  cbn. rewrite <- IH. now destruct s.
Qed.

Lemma reads_of_calls (t : list event) :
  List.length (filter is_read t) =
  List.length (filter (fun c => match c with CRead _ => true | _ => false end)
                 (map call_of_event t)).
Proof.
  induction t as [|ev t IH]; [reflexivity|].
  cbn. destruct ev; cbn; auto.
Qed.

Lemma call_plan_reads ms host segs : forall i hk,
  List.length (filter (fun c => match c with CRead _ => true | _ => false end)
                 (map call_of_step (call_plan ms host i hk segs))) =
  (List.length segs +
   List.length (filter is_key_read (call_plan ms host i hk segs)))%nat.
Proof.
  induction segs as [|s segs IH]; intros i hk; cbn [call_plan]; [reflexivity|].
  rewrite map_app, !filter_app, !length_app, IH. cbn [List.length].
  unfold segment_plan. destruct (is_aes128 s), hk; cbn; lia.
Qed.

Lemma is_prefix_filter_length {A} (f : A -> bool) (l1 l2 : list A) :
  is_prefix l1 l2 ->
  (List.length (filter f l1) <= List.length (filter f l2))%nat.
Proof. intros [t ->]. rewrite filter_app, length_app. lia. Qed.

Section Loop.
Variable E : Env.

Lemma segments_loop_shape ms host segs : forall i key ts,
  runs (segments_loop E ms host i segs key ts)
    (fun r new =>
       is_prefix (map call_of_event new)
         (map call_of_step (call_plan ms host i (truthy_opt_bytes key) segs)) /\
       (forall out, r = inr out ->
          map call_of_event new =
          map call_of_step (call_plan ms host i (truthy_opt_bytes key) segs))).
Proof.
  induction segs as [|s segs IH]; intros i key ts; cbn [segments_loop call_plan].
  - apply runs_ret. split; [apply is_prefix_refl|reflexivity].
  - eapply runs_bind; [apply segment_body_runs| |].
    + intros e new H. split; [|discriminate].
      rewrite map_app. apply is_prefix_app_r. eapply body_post_prefix; eauto.
    + intros [key' ts'] new1 H.
      destruct (body_post_Ok _ _ _ _ _ _ _ _ _ _ H) as (Hsh & Htr & _).
      eapply runs_weaken; [apply IH|]. cbn [fst snd].
      intros r new2 [Hp Heq]. rewrite Htr in *. rewrite !map_app, Hsh.
      split; [now apply is_prefix_app_l|].
      intros out Hr. f_equal. eauto.
Qed.

Lemma segments_loop_plain ms host segs : forall i key ts,
  unencrypted segs = true ->
  runs (segments_loop E ms host i segs key ts)
    (fun r new =>
       forall out, r = inr out ->
         out = ts ++ List.concat (fetched new) /\
         forallb is_read new = true /\
         List.length (fetched new) = List.length segs).
Proof.
  induction segs as [|s segs IH]; intros i key ts Hpl; cbn [segments_loop].
  - apply runs_ret. intros out H. inversion H. cbn. now rewrite app_nil_r.
  - cbn in Hpl. apply andb_true_iff in Hpl as [Hs Hpl]. apply negb_true_iff in Hs.
    eapply runs_bind; [apply segment_body_runs| |].
    + intros e new H out Hout. discriminate.
    + intros [key' ts'] new1 H.
      destruct (body_post_Ok _ _ _ _ _ _ _ _ _ _ H) as (_ & _ & Hid).
      destruct (Hid Hs) as (-> & ev & data & -> & Hrd & Hf & ->).
      eapply runs_weaken; [apply (IH _ _ _ Hpl)|]. cbn [fst snd].
      intros r new2 Hpost out Hr. destruct (Hpost out Hr) as (-> & Hall & Hlen).
      unfold fetched in *. rewrite flat_map_app, concat_app, Hf, forallb_app.
      rewrite length_app, Hlen. cbn. rewrite Hrd, Hall, app_nil_r, <- app_assoc.
      auto.
Qed.

Lemma read_post_quiet e p e' new :
  env_never_raises E e -> read_post E p (inl e') new -> e' <> e.
Proof.
  intros (Hp & Hu & Ho & _) H Heq. subst e'.
  inversion H as [e0 st Hparse _ | r st _ Hr _ | r st _ Hr _]; subst.
  - exact (Hp _ Hparse).
  - exact (Hu _ _ (eq_sym Hr)).
  - exact (Ho _ _ (eq_sym Hr)).
Qed.

Lemma body_post_quiet e ms host i seg key ts e' new :
  env_never_raises E e -> is_ValueError e = false ->
  (forall msg, e <> AttributeError msg) ->
  body_post E ms host i seg key ts (inl e') new -> e' <> e.
Proof.
  intros Henv Hv Ha H.
  assert (Hsel : forall new, select_post E ms i seg key (inl e') new -> e' <> e).
  { intros n Hs. inversion Hs as [msg | | e0 n0 _ _ Hr | k e0 n0 _ _ Hset | ]; subst.
    - intros Heq. exact (Ha msg (eq_sym Heq)).
    - eapply read_post_quiet; eauto.
    - intros ->. unfold rbind in Hset.
      destruct (derive_iv (Z.of_nat i + ms)) as [e1|iv] eqn:Hiv.
      + inversion Hset; subst. apply derive_iv_error in Hiv. congruence.
      + apply AES_new_error in Hset. congruence. }
  inversion H as [e0 n Hs | k' c e0 n1 n2 _ Hr | | k' c data r n1 n2 _ _ Hd Hres]; subst.
  - eauto.
  - eapply read_post_quiet; eauto.
  - destruct Henv as (_ & _ & _ & Hdec). intros ->.
    destruct (cbc_decrypt E (cipher_key c) (cipher_iv c) data) as [e1|plain] eqn:Hc;
      [|discriminate].
    inversion Hres; subst. exact (Hdec _ _ _ Hc).
Qed.

Lemma segments_loop_quiet e ms host segs : forall i key ts,
  env_never_raises E e -> is_ValueError e = false ->
  (forall msg, e <> AttributeError msg) ->
  runs (segments_loop E ms host i segs key ts) (fun r _ => r <> inl e).
Proof.
  induction segs as [|s segs IH]; intros i key ts Henv Hv Ha; cbn [segments_loop].
  - apply runs_ret. discriminate.
  - eapply runs_bind; [apply segment_body_runs| |].
    + intros e' new H Heq. inversion Heq; subst.
      eapply body_post_quiet; eauto.
    + intros [key' ts'] new1 _. eapply runs_weaken; [apply IH; auto|]. auto.
Qed.

Lemma select_post_unusable ms i seg key x new :
  is_aes128 seg = true -> truthy_opt_bytes key = false ->
  key_unusable E (key_uri_of seg) ->
  select_post E ms i seg key (inr x) new -> False.
Proof.
  intros Haes Htr Hun H.
  inversion H as [ | _ Hno | | | k iv c n _ Hsrc _ Hc]; subst.
  - congruence.
  - destruct (AES_new_Ok _ _ _ Hc) as (Hv & _).
    destruct Hsrc as [k Hk Ht | k n _ Hr]; [congruence|].
    destruct (read_post_replay _ _ _ _ Hr) as [st Hst].
    specialize (Hun st). rewrite Hst in Hun. congruence.
Qed.

Lemma segments_loop_unusable ms host s rest pre : forall i key ts,
  unencrypted pre = true -> is_aes128 s = true -> truthy_opt_bytes key = false ->
  key_unusable E (key_uri_of s) ->
  runs (segments_loop E ms host i (pre ++ s :: rest) key ts)
    (fun r _ => exists e, r = inl e).
Proof.
  induction pre as [|p pre IH]; intros i key ts Hpl Haes Htr Hun;
    cbn [app segments_loop].
  - eapply runs_bind; [apply segment_body_runs| |].
    + intros e new _. eauto.
    + intros [key' ts'] new1 H. exfalso.
      inversion H; subst; eapply select_post_unusable; eauto.
  - cbn in Hpl. apply andb_true_iff in Hpl as [Hp Hpl]. apply negb_true_iff in Hp.
    eapply runs_bind; [apply segment_body_runs| |].
    + intros e new _. eauto.
    + intros [key' ts'] new1 H.
      destruct (body_post_Ok _ _ _ _ _ _ _ _ _ _ H) as (_ & _ & Hid).
      destruct (Hid Hp) as (-> & _).
      eapply runs_weaken; [apply IH; auto|]. auto.
Qed.

Lemma get_ts_from_m3u8_unfold input host st :
  get_ts_from_m3u8 E input host st =
  match m3u8_loads E input with
  | inl e => (inl e, st)
  | inr m =>
      match resolved_host m host with
      | inl e => (inl e, st)
      | inr None => (inl host_not_set, st)
      | inr (Some h) =>
          segments_loop E (M3U8.media_sequence m) h 0 (M3U8.segments m) None [] st
      end
  end.
Proof.
  unfold get_ts_from_m3u8, bind, lift, resolved_host.
  destruct (m3u8_loads E input) as [e|m]; [reflexivity|].
  destruct (truthy_opt_str host); cbn.
  - destruct host; reflexivity.
  - destruct (get_host_uri m) as [e|[h|]]; reflexivity.
Qed.

Lemma convert_unfold input output st :
  convert E input output st =
  match get_ts_from_m3u8 E input None st with
  | (inl e, st') => (inl e, st')
  | (inr out, st') => write E output out st'
  end.
Proof. reflexivity. Qed.
End Loop.

(** ** The whole conversion *)

Lemma get_host_uri_loop_error keys range e :
  get_host_uri_loop keys range = inl e -> exists msg, e = IndexError msg.
Proof.
  induction range as [|i range IH]; cbn [get_host_uri_loop]; [discriminate|].
  unfold host_uri_of_key.
  destruct (nth_error keys i) as [[k|]|].
  - destruct (Key.uri k); [discriminate|]. exact IH.
  - exact IH.
  - intros H. inversion H. eauto.
Qed.

Lemma get_host_uri_nonpositive m :
  M3U8.media_sequence m <= 0 -> get_host_uri m = Ok None.
Proof.
  intros H. unfold get_host_uri.
  replace (Z.to_nat (M3U8.media_sequence m)) with 0%nat by lia. reflexivity.
Qed.

Lemma written_app o t1 t2 : written o (t1 ++ t2) = written o t1 ++ written o t2.
Proof. apply flat_map_app. Qed.


Section Claims.
Variable E : Env.

Lemma get_ts_from_m3u8_shape input host st m h :
  m3u8_loads E input = Ok m -> resolved_host m host = Ok (Some h) ->
  exists new,
    trace (snd (get_ts_from_m3u8 E input host st)) = trace st ++ new /\
    is_prefix (map call_of_event new)
      (map call_of_step
         (call_plan (M3U8.media_sequence m) h 0 false (M3U8.segments m))) /\
    (forall out, fst (get_ts_from_m3u8 E input host st) = Ok out ->
       map call_of_event new =
       map call_of_step
         (call_plan (M3U8.media_sequence m) h 0 false (M3U8.segments m))).
Proof.
  intros Hm Hh. unfold Ok in Hm, Hh.
  rewrite get_ts_from_m3u8_unfold, Hm. cbv beta iota. rewrite Hh.
  destruct (segments_loop_shape E (M3U8.media_sequence m) h (M3U8.segments m)
              0%nat None [] st) as (new & Ht & Hp & Heq).
  exists new. auto.
Qed.

Lemma get_ts_from_m3u8_no_host input host st m :
  m3u8_loads E input = Ok m ->
  (forall h, resolved_host m host <> Ok (Some h)) ->
  snd (get_ts_from_m3u8 E input host st) = st /\
  exists e, fst (get_ts_from_m3u8 E input host st) = inl e.
Proof.
  intros Hm Hh. unfold Ok in Hm.
  rewrite get_ts_from_m3u8_unfold, Hm. cbv beta iota.
  destruct (resolved_host m host) as [e|[h|]]; cbn; eauto.
  now destruct (Hh h).
Qed.
End Claims.

(** ** The key of the decryptions *)

Lemma decrypt_keys_app t1 t2 :
  decrypt_keys (t1 ++ t2) = decrypt_keys t1 ++ decrypt_keys t2.
Proof. apply flat_map_app. Qed.

Section Keys.
Variable E : Env.

Lemma read_post_no_decrypt p r new : read_post E p r new -> decrypt_keys new = [].
Proof. intros H. destruct H; reflexivity. Qed.

Lemma read_post_fetch p k new :
  read_post E p (inr k) new -> exists ev, new = [ev] /\ is_fetch_of p k ev.
Proof.
  intros H. inversion H; subst; eexists; (split; [reflexivity|]);
    [left|right]; reflexivity.
Qed.

Lemma key_source_no_decrypt seg key k new :
  key_source E seg key k new -> decrypt_keys new = [].
Proof. intros H. destruct H; [reflexivity|]. eapply read_post_no_decrypt; eauto. Qed.

Lemma select_post_no_decrypt ms i seg key r new :
  select_post E ms i seg key r new -> decrypt_keys new = [].
Proof.
  intros H. destruct H; try reflexivity;
    eauto using read_post_no_decrypt, key_source_no_decrypt.
Qed.

(** Where the key of a cipher comes from. *)
Lemma select_post_cipher ms i seg key key' c new :
  select_post E ms i seg key (inr (key', Some c)) new ->
  is_aes128 seg = true /\ key' = Some (cipher_key c) /\
  valid_key_len (cipher_key c) = true /\
  ((truthy_opt_bytes key = true /\ key = Some (cipher_key c) /\ new = []) \/
   (truthy_opt_bytes key = false /\
    exists ev, new = [ev] /\ is_fetch_of (key_uri_of seg) (cipher_key c) ev)).
Proof.
  intros H. inversion H as [ | | | | k iv c' new' Haes Hsrc Hiv Hc]; subst.
  destruct (AES_new_Ok _ _ _ Hc) as (Hv & _ & ->). cbn [cipher_key].
  split; [assumption|]. split; [reflexivity|]. split; [assumption|].
  destruct Hsrc as [k Hk Htr | k new Htr Hr]; [left; auto|right].
  split; [assumption|]. now apply read_post_fetch.
Qed.

Lemma body_post_keys ms host i seg key ts r new :
  body_post E ms host i seg key ts r new ->
  (decrypt_keys new = [] /\
   (forall key' ts', r = inr (key', ts') -> is_aes128 seg = false)) \/
  (exists k,
      decrypt_keys new = [k] /\ is_aes128 seg = true /\ valid_key_len k = true /\
      (forall key' ts', r = inr (key', ts') -> key' = Some k) /\
      ((truthy_opt_bytes key = true /\ key = Some k) \/
       (truthy_opt_bytes key = false /\
        exists ev rest, new = ev :: rest /\ is_fetch_of (key_uri_of seg) k ev))).
Proof.
  intros H.
  destruct H as [e new Hs | key' c e n1 n2 Hs Hr | key' data n1 n2 Hs Hr
                | key' c data r n1 n2 Hs Hr Hd].
  - left. split; [eapply select_post_no_decrypt; eauto|discriminate].
  - left. split; [|discriminate]. rewrite decrypt_keys_app.
    now rewrite (select_post_no_decrypt _ _ _ _ _ _ Hs), (read_post_no_decrypt _ _ _ Hr).
  - left. rewrite decrypt_keys_app.
    rewrite (select_post_no_decrypt _ _ _ _ _ _ Hs), (read_post_no_decrypt _ _ _ Hr).
    split; [reflexivity|]. intros _ _ _.
    now destruct (select_post_Ok _ _ _ _ _ _ _ _ Hs) as (_ & _ & _ & Haes & _).
  - right. exists (cipher_key c).
    destruct (select_post_cipher _ _ _ _ _ _ _ Hs) as (Haes & Hk & Hv & Hsrc).
    rewrite !decrypt_keys_app.
    rewrite (select_post_no_decrypt _ _ _ _ _ _ Hs), (read_post_no_decrypt _ _ _ Hr).
    split; [reflexivity|]. split; [assumption|]. split; [assumption|]. split.
    + intros k' ts' Hres. destruct r; [discriminate|]. inversion Hres. congruence.
    + destruct Hsrc as [(Htr & Hkey & _)|(Htr & ev & -> & Hf)]; [left; auto|right].
      split; [assumption|]. exists ev. eexists. split; [reflexivity|assumption].
Qed.

Lemma segments_loop_cached_key ms host k segs : forall i ts,
  truthy_opt_bytes (Some k) = true ->
  runs (segments_loop E ms host i segs (Some k) ts)
    (fun _ new => decrypt_keys new = repeat k (List.length (decrypt_keys new))).
Proof.
  induction segs as [|s segs IH]; intros i ts Htr; cbn [segments_loop].
  - apply runs_ret. reflexivity.
  - eapply runs_bind; [apply segment_body_runs| |].
    + intros e new H.
      destruct (body_post_keys _ _ _ _ _ _ _ _ H)
        as [(-> & _)|(k' & -> & _ & _ & _ & [(_ & Hk)|(Hf & _)])];
        [reflexivity| |congruence].
      inversion Hk. reflexivity.
    + intros [key' ts'] new1 H. cbn [fst snd].
      destruct (body_post_Ok _ _ _ _ _ _ _ _ _ _ H) as (_ & _ & Hid).
      assert (Hkey : key' = Some k /\
                     decrypt_keys new1 = repeat k (List.length (decrypt_keys new1))).
      { destruct (body_post_keys _ _ _ _ _ _ _ _ H)
          as [(Hd & Hno)|(k' & Hd & _ & _ & Hk' & [(_ & Hk)|(Hf & _)])];
          [|inversion Hk; subst k'|congruence].
        - destruct (Hid (Hno _ _ eq_refl)) as (-> & _). now rewrite Hd.
        - rewrite Hd. split; [eauto|reflexivity]. }
      destruct Hkey as (-> & Hd1).
      eapply runs_weaken; [apply (IH _ _ Htr)|].
      intros r new2 Hd2. rewrite decrypt_keys_app, length_app, repeat_app.
      now rewrite <- Hd1, <- Hd2.
Qed.

(** With no key yet: nothing is decrypted before the key of the first
    AES-128 segment has been fetched, and that key serves every decryption. *)
Lemma segments_loop_fresh_key ms host segs : forall i key ts,
  truthy_opt_bytes key = false ->
  runs (segments_loop E ms host i segs key ts)
    (fun r new =>
       (decrypt_keys new = [] \/
        exists k pre s rest,
          segs = pre ++ s :: rest /\ unencrypted pre = true /\ is_aes128 s = true /\
          (exists ev, nth_error new (List.length pre) = Some ev /\
                      is_fetch_of (key_uri_of s) k ev) /\
          valid_key_len k = true /\
          decrypt_keys new = repeat k (List.length (decrypt_keys new))) /\
       (forall out pre s rest,
          r = inr out -> segs = pre ++ s :: rest -> unencrypted pre = true ->
          is_aes128 s = true ->
          exists k ev, nth_error new (List.length pre) = Some ev /\
                       is_fetch_of (key_uri_of s) k ev /\ valid_key_len k = true)).
Proof.
  induction segs as [|s segs IH]; intros i key ts Htr; cbn [segments_loop].
  - apply runs_ret. split; [now left|].
    intros out pre s rest _ H. now destruct pre.
  - eapply runs_bind; [apply segment_body_runs| |].
    + intros e new H. split; [|discriminate].
      destruct (body_post_keys _ _ _ _ _ _ _ _ H)
        as [(Hd & _)|(k & Hd & Haes & Hv & _ & [(Ht & _)|(_ & ev & rest & -> & Hf)])];
        [now left|congruence|right].
      exists k, [], s, segs. rewrite Hd. cbn. repeat split; eauto.
    + intros [key' ts'] new1 H. cbn [fst snd].
      destruct (body_post_Ok _ _ _ _ _ _ _ _ _ _ H) as (_ & Htr' & Hid).
      destruct (body_post_keys _ _ _ _ _ _ _ _ H)
        as [(Hd & Hno)|(k & Hd & Haes & Hv & Hk' & [(Ht & _)|(_ & ev & rest & Hnew & Hf)])];
        [| congruence |].
      * (* a segment that needs no key *)
        pose proof (Hno _ _ eq_refl) as Haes.
        destruct (Hid Haes) as (-> & ev & data & -> & _ & _ & _).
        eapply runs_weaken; [apply (IH _ _ _ Htr)|].
        intros r new2 [Hkeys Hok]. split.
        -- destruct Hkeys as [Hd2|(k & pre & s' & rest & -> & Hpre & Hs' & (ev' & Hn & Hf) & Hv & Hd2)].
           ++ left. rewrite decrypt_keys_app, Hd. exact Hd2.
           ++ right. exists k, (s :: pre), s', rest.
              split; [reflexivity|].
              split; [unfold unencrypted in *; cbn [forallb]; now rewrite Haes, Hpre|].
              split; [assumption|]. split; [exists ev'; split; assumption|].
              split; [assumption|]. rewrite decrypt_keys_app, Hd. exact Hd2.
        -- intros out pre s' rest Hr Hsegs Hpre Hs'.
           destruct pre as [|p pre]; cbn in Hsegs; inversion Hsegs; subst.
           ++ congruence.
           ++ cbn in Hpre. apply andb_true_iff in Hpre as [_ Hpre].
              destruct (Hok out pre s' rest eq_refl eq_refl Hpre Hs') as (k & ev' & Hn & Hf & Hv).
              exists k, ev'. cbn. auto.
      * (* the first AES-128 segment *)
        rewrite (Hk' _ _ eq_refl) in *. subst new1.
        assert (Htk : truthy_opt_bytes (Some k) = true) by now rewrite Htr', Haes, orb_true_r.
        eapply runs_weaken; [apply (segments_loop_cached_key ms host k segs _ _ Htk)|].
        intros r new2 Hd2. split.
        -- right. exists k, [], s, segs.
           split; [reflexivity|]. split; [reflexivity|]. split; [assumption|].
           split; [exists ev; split; [reflexivity|assumption]|].
           split; [assumption|].
           rewrite decrypt_keys_app, Hd, length_app.
           cbn [List.length Nat.add repeat app]. f_equal. exact Hd2.
        -- intros out pre s' rest' Hr Hsegs Hpre Hs'.
           destruct pre as [|p pre]; cbn in Hsegs; inversion Hsegs; subst.
           ++ exists k, ev. cbn. auto.
           ++ cbn in Hpre. apply andb_true_iff in Hpre as [Hp _].
              rewrite Haes in Hp. discriminate.
Qed.
End Keys.

(** ** Where the loop stops, and the output *)



Section Stops.
Variable E : Env.



Lemma write_run output c st :
  write E output c st =
  (fst (output_write E output c (world st)),
   mkState (snd (output_write E output c (world st)))
     (trace st ++ [EvWrite output c (fst (output_write E output c (world st)))])).
Proof. unfold write. now destruct (output_write E output c (world st)). Qed.

Lemma written_snoc_write o output c r t :
  written o (t ++ [EvWrite output c r]) =
  written o t ++ match r with
                 | inr _ => if Nat.eqb output o then c else []
                 | inl _ => []
                 end.
Proof.
  rewrite written_app. f_equal. unfold written. cbn [flat_map].
  destruct r; [reflexivity|apply app_nil_r].
Qed.
End Stops.

(** ** The fetch *)

Lemma read_bytes_run (E : Env) (path : option string) (silent : bool) (st : State E) :
  read_bytes E path silent st =
  match is_valid E path None with
  | inl e => (inl e, st)
  | inr true =>
      let rw := urlopen_read E path (world st) in
      (fst rw,
       mkState (snd rw)
         (trace st ++ (if silent then [] else [EvPrint path]) ++
          [EvUrlopen path (fst rw)]))
  | inr false =>
      let rw := open_rb_read E path (world st) in
      (fst rw, mkState (snd rw) (trace st ++ [EvOpen path (fst rw)]))
  end.
Proof.
  unfold read_bytes, bind, lift.
  destruct (is_valid E path None) as [e|[|]]; cbv beta iota zeta.
  - reflexivity.
  - unfold urlopen, print, log, ret. destruct silent; cbn.
    + now destruct (urlopen_read E path (world st)).
    + destruct (urlopen_read E path (world st)). cbn. now rewrite <- app_assoc.
  - unfold open_rb. now destruct (open_rb_read E path (world st)).
Qed.

Lemma is_valid_true_iff (E : Env) (path : option string) :
  is_valid E path None = Ok true <->
  exists token, urlparse E path = Ok token /\
                pr_scheme token <> "" /\ pr_netloc token <> "".
Proof.
  rewrite is_valid_default. unfold Ok. destruct (urlparse E path) as [e|token].
  - split; [discriminate|]. intros (t & Ht & _). discriminate.
  - split.
    + intros H. exists token. split; [reflexivity|].
      destruct (pr_scheme token), (pr_netloc token); cbn in H;
        split; congruence.
    + intros (t & Ht & Hs & Hn). inversion Ht; subst t.
      destruct (pr_scheme token), (pr_netloc token); cbn; congruence.
Qed.

Lemma is_valid_false_iff (E : Env) (path : option string) :
  is_valid E path None = Ok false <->
  exists token, urlparse E path = Ok token /\
                (pr_scheme token = "" \/ pr_netloc token = "").
Proof.
  rewrite is_valid_default. unfold Ok. destruct (urlparse E path) as [e|token].
  - split; [discriminate|]. intros (t & Ht & _). discriminate.
  - split.
    + intros H. exists token. split; [reflexivity|].
      destruct (pr_scheme token), (pr_netloc token); cbn in H; auto; discriminate.
    + intros (t & Ht & Hs). inversion Ht; subst t.
      destruct Hs as [-> | ->]; [reflexivity|].
      cbn. now rewrite andb_false_r.
Qed.

(** ** Splitting and joining on ["/"] *)

Lemma str_split_cons sep s : exists h t, str_split sep s = h :: t.
Proof.
  induction s as [|c s IH]; cbn [str_split]; [eauto|].
  destruct (Ascii.eqb c sep); [eauto|].
  destruct IH as (h & t & ->). eauto.
Qed.

Lemma concat_cons2 sep x y l :
  String.concat sep (x :: y :: l) = (x ++ sep ++ String.concat sep (y :: l))%string.
Proof. reflexivity. Qed.

Lemma concat_str_split s : String.concat "/" (str_split "/" s) = s.
Proof.
  induction s as [|c s IH]; [reflexivity|]. cbn [str_split].
  destruct (Ascii.eqb_spec c "/") as [->|Hc].
  - destruct (str_split_cons "/" s) as (h & t & Hs). rewrite Hs in *.
    rewrite concat_cons2, IH. reflexivity.
  - destruct (str_split_cons "/" s) as (h & t & Hs). rewrite Hs in *.
    destruct t as [|y t].
    + cbn in IH |- *. now rewrite IH.
    + rewrite concat_cons2 in IH |- *.
      transitivity (String c (h ++ "/" ++ String.concat "/" (y :: t))%string);
        [reflexivity|now rewrite IH].
Qed.

Lemma str_split_no_slash s :
  Forall (fun x => has_slash x = false) (str_split "/" s).
Proof.
  induction s as [|c s IH]; cbn [str_split]; [repeat constructor|].
  destruct (Ascii.eqb c "/") eqn:Hc; [constructor; auto|].
  destruct (str_split "/" s) as [|h t]; [repeat constructor; cbn; now rewrite Hc|].
  inversion IH; subst. constructor; [cbn; now rewrite Hc|assumption].
Qed.

Lemma str_split_single s :
  has_slash s = false -> str_split "/" s = [s].
Proof.
  induction s as [|c s IH]; [reflexivity|]. cbn. intros H.
  apply orb_false_iff in H as [Hc Hs]. rewrite Hc, (IH Hs). reflexivity.
Qed.

Lemma str_split_several s :
  has_slash s = true -> exists h x t, str_split "/" s = h :: x :: t.
Proof.
  induction s as [|c s IH]; [discriminate|]. cbn. intros H.
  destruct (Ascii.eqb c "/") eqn:Hc.
  - destruct (str_split_cons "/" s) as (h & t & ->). eauto.
  - cbn in H. destruct (IH H) as (h & x & t & ->). eauto.
Qed.

Lemma string_append_assoc (a b c : string) :
  ((a ++ b) ++ c)%string = (a ++ (b ++ c))%string.
Proof. induction a as [|x a IH]; [reflexivity|]. cbn. now rewrite IH. Qed.

Lemma concat_snoc (l : list string) x :
  l <> [] -> String.concat "/" (l ++ [x]) = (String.concat "/" l ++ "/" ++ x)%string.
Proof.
  induction l as [|a l IH]; [congruence|]. intros _.
  destruct l as [|b l]; [reflexivity|].
  change ((a :: b :: l) ++ [x]) with (a :: b :: (l ++ [x])).
  rewrite !concat_cons2. change (b :: l ++ [x]) with ((b :: l) ++ [x]).
  rewrite IH by discriminate.
  rewrite !string_append_assoc. reflexivity.
Qed.

Lemma parent_path_spec u :
  has_slash (last_component u) = false /\
  (has_slash u = true -> u = (parent_path u ++ "/" ++ last_component u)%string) /\
  (has_slash u = false -> parent_path u = "" /\ last_component u = u).
Proof.
  unfold parent_path, last_component. split; [|split].
  - pose proof (str_split_no_slash u) as Hall.
    destruct (str_split_cons "/" u) as (h & t & Hs). rewrite Hs in *.
    rewrite Forall_forall in Hall. apply Hall.
    destruct (@exists_last _ (h :: t) ltac:(discriminate)) as (l' & a & Hl).
    rewrite Hl, last_last. apply in_or_app. right. now left.
  - intros H. destruct (str_split_several u H) as (h & x & t & Hs).
    destruct (@exists_last _ (h :: x :: t) ltac:(discriminate)) as (l' & a & Hl).
    rewrite Hs, Hl, removelast_last, last_last.
    rewrite <- concat_snoc.
    + rewrite <- Hl, <- Hs. symmetry. apply concat_str_split.
    + intros ->. discriminate.
  - intros H. rewrite (str_split_single u H). split; reflexivity.
Qed.

(** ** The scan of [get_host_uri] *)

Lemma skipn_nth_error {A} (l : list A) : forall a,
  match nth_error l a with
  | None => skipn a l = []
  | Some x => skipn a l = x :: skipn (S a) l
  end.
Proof.
  induction l as [|y l IH]; intros [|a]; cbn; auto.
  - specialize (IH a). destruct (nth_error l a); cbn in IH |- *; exact IH.
Qed.

Lemma host_uri_of_key_entry keys i :
  host_uri_of_key keys i =
  match nth_error keys i with
  | None => Raise (IndexError "list index out of range")
  | Some k =>
      match entry_uri k with
      | Some u => Ok (parent_path u)
      | None =>
          match k with
          | None => Raise (AttributeError "'NoneType' object has no attribute 'uri'")
          | Some _ => Raise (AttributeError "'NoneType' object has no attribute 'split'")
          end
      end
  end.
Proof.
  unfold host_uri_of_key, entry_uri, parent_path.
  destruct (nth_error keys i) as [[k|]|]; [destruct (Key.uri k)| |]; reflexivity.
Qed.

Lemma get_host_uri_loop_scan keys : forall n a,
  get_host_uri_loop keys (seq a n) =
  match first_uri (firstn n (skipn a keys)) with
  | Some u => Ok (Some (parent_path u))
  | None =>
      if (List.length (skipn a keys) <? n)%nat
      then Raise (IndexError "list index out of range")
      else Ok None
  end.
Proof.
  induction n as [|n IH]; intros a; [reflexivity|].
  cbn [seq get_host_uri_loop]. rewrite host_uri_of_key_entry.
  pose proof (skipn_nth_error keys a) as Hs.
  destruct (nth_error keys a) as [k|]; rewrite Hs.
  - cbn [firstn first_uri List.length].
    destruct (entry_uri k) as [u|] eqn:Hu; [reflexivity|].
    destruct k as [k|]; rewrite IH; reflexivity.
  - reflexivity.
Qed.

(** ** Segments without a key object *)

Lemma segments_loop_keyless (E : Env) ms host s rest pre : forall i key ts,
  Segment.key s = None ->
  runs (segments_loop E ms host i (pre ++ s :: rest) key ts)
    (fun r _ => exists e, r = inl e).
Proof.
  induction pre as [|p pre IH]; intros i key ts Hk; cbn [app segments_loop].
  - eapply runs_bind; [apply segment_body_runs| |].
    + intros e new _. eauto.
    + intros [key' ts'] new1 H. exfalso.
      assert (Hsel : forall x n, select_post E ms i s key (inr x) n -> False).
      { intros x n Hs. inversion Hs; subst; try congruence.
        unfold is_aes128 in *. rewrite Hk in *. discriminate. }
      inversion H; subst; eapply Hsel; eauto.
  - eapply runs_bind; [apply segment_body_runs| |].
    + intros e new _. eauto.
    + intros [key' ts'] new1 _. eapply runs_weaken; [apply IH; auto|]. auto.
Qed.

(** ** Calls that a run never makes *)

Lemma plan_prefix_no_write (new : list event) : forall pl : list step,
  is_prefix (map call_of_event new) (map call_of_step pl) ->
  filter is_write new = [] /\ filter is_print new = [].
Proof.
  induction new as [|ev new IH]; intros pl [t Ht]; [split; reflexivity|].
  destruct pl as [|x pl]; [discriminate|]. cbn in Ht.
  inversion Ht as [[Hx Hrest]].
  destruct (IH pl) as [Hw Hp]; [now exists t|].
  cbn. destruct ev; try (destruct x; discriminate); auto.
Qed.

Lemma is_prefix_NoDup {A} (l1 l2 : list A) :
  is_prefix l1 l2 -> NoDup l2 -> NoDup l1.
Proof. intros [t ->] H. now apply NoDup_app_remove_r in H. Qed.

Lemma aes_indices_range segs : forall i j,
  In j (aes_indices i segs) -> (i <= j < i + List.length segs)%nat.
Proof.
  induction segs as [|s segs IH]; intros i j; cbn [aes_indices]; [intros []|].
  intros H. apply in_app_or in H as [H|H].
  - destruct (is_aes128 s); [|destruct H]. destruct H as [<-|[]]. cbn. lia.
  - apply IH in H. cbn. lia.
Qed.

Lemma aes_indices_NoDup segs : forall i, NoDup (aes_indices i segs).
Proof.
  induction segs as [|s segs IH]; intros i; cbn [aes_indices]; [constructor|].
  destruct (is_aes128 s); cbn; [|apply IH].
  constructor; [|apply IH]. intros H. apply aes_indices_range in H. lia.
Qed.

Lemma NoDup_map_on {A B} (f : A -> B) (l : list A) :
  (forall x y, In x l -> In y l -> f x = f y -> x = y) ->
  NoDup l -> NoDup (map f l).
Proof.
  induction l as [|a l IH]; intros Hinj Hnd; [constructor|].
  inversion Hnd; subst. cbn. constructor.
  - intros Hin. apply in_map_iff in Hin as (y & Hy & Hiny).
    assert (y = a) by (apply Hinj; [now right|now left|assumption]).
    subst y. contradiction.
  - apply IH; [|assumption]. intros x y Hx Hy. apply Hinj; now right.
Qed.

Lemma int_to_bytes_big_16_inj n n' :
  0 <= n < 2 ^ 128 -> 0 <= n' < 2 ^ 128 ->
  int_to_bytes_big 16 n = int_to_bytes_big 16 n' -> n = n'.
Proof.
  intros Hn Hn' Hb. apply (f_equal int_from_bytes_big) in Hb.
  rewrite !int_from_to_bytes_big in Hb.
  change (256 ^ Z.of_nat 16) with (2 ^ 128) in Hb.
  rewrite !Z.mod_small in Hb by lia. exact Hb.
Qed.

(** ** What the plan holds *)

Lemma aes_indices_length segs : forall i,
  List.length (aes_indices i segs) = List.length (filter is_aes128 segs).
Proof.
  induction segs as [|s segs IH]; intros i; cbn [aes_indices filter]; [reflexivity|].
  rewrite length_app, IH. now destruct (is_aes128 s).
Qed.

Lemma find_existsb (segs : list Segment.t) :
  existsb is_aes128 segs = match find is_aes128 segs with Some _ => true | None => false end.
Proof.
  induction segs as [|s segs IH]; [reflexivity|]. cbn.
  destruct (is_aes128 s); [reflexivity|exact IH].
Qed.

Lemma call_plan_entries ms h segs : forall i hk x,
  In x (call_plan ms h i hk segs) ->
  match x with
  | SegRead p => exists s, In s segs /\ p = Some (os_path_join h (Segment.uri s))
  | KeyRead p => exists s, find is_aes128 segs = Some s /\ p = key_uri_of s
  | Decrypt iv => exists j, In j (aes_indices i segs) /\
                            iv = int_to_bytes_big 16 (Z.of_nat j + ms)
  end.
Proof.
  induction segs as [|s segs IH]; intros i hk x; cbn [call_plan]; [intros []|].
  intros H. apply in_app_or in H as [H|H].
  - unfold segment_plan in H. cbn [find aes_indices].
    destruct (is_aes128 s) eqn:Haes.
    + apply in_app_or in H as [H|H].
      * destruct hk; [destruct H|]. destruct H as [<-|[]]. eauto.
      * destruct H as [<-|[<-|[]]].
        -- exists s. split; [now left|reflexivity].
        -- exists i. split; [now left|reflexivity].
    + destruct H as [<-|[]]. exists s. split; [now left|reflexivity].
  - specialize (IH _ _ _ H). destruct x as [p|p|iv].
    + destruct IH as (s' & Hf & ->). cbn [find].
      destruct (is_aes128 s) eqn:Haes.
      * (* a key is already there: no later key fetch *)
        exfalso. rewrite orb_true_r in H.
        assert (Hk : In (KeyRead (key_uri_of s'))
                       (filter is_key_read (call_plan ms h (S i) true segs)))
          by (apply filter_In; split; [exact H|reflexivity]).
        now rewrite call_plan_key_reads in Hk.
      * eauto.
    + destruct IH as (s' & Hin & ->). exists s'. split; [now right|reflexivity].
    + destruct IH as (j & Hj & ->). exists j. split; [|reflexivity].
      cbn [aes_indices]. apply in_or_app. now right.
Qed.

Lemma fetched_app t1 t2 : fetched (t1 ++ t2) = fetched t1 ++ fetched t2.
Proof. apply flat_map_app. Qed.

Lemma decrypt_inputs_app t1 t2 :
  decrypt_inputs (t1 ++ t2) = decrypt_inputs t1 ++ decrypt_inputs t2.
Proof. apply flat_map_app. Qed.

Lemma decrypt_outputs_app t1 t2 :
  decrypt_outputs (t1 ++ t2) = decrypt_outputs t1 ++ decrypt_outputs t2.
Proof. apply flat_map_app. Qed.

(** ** What [get_ts_from_m3u8] never does *)

Lemma get_ts_from_m3u8_no_write (E : Env) input host (st : State E) :
  exists new,
    trace (snd (get_ts_from_m3u8 E input host st)) = trace st ++ new /\
    filter is_write new = [].
Proof.
  rewrite get_ts_from_m3u8_unfold.
  destruct (m3u8_loads E input) as [e|m]; [exists []; now rewrite app_nil_r|].
  destruct (resolved_host m host) as [e|[h|]]; try (exists []; now rewrite app_nil_r).
  destruct (segments_loop_shape E (M3U8.media_sequence m) h (M3U8.segments m)
              0%nat None [] st) as (new & Ht & Hp & _).
  exists new. split; [exact Ht|]. eapply plan_prefix_no_write; eauto.
Qed.

(** ** Encrypted segments *)

Section Encrypted.
Variable E : Env.

Lemma read_post_fetched p data new :
  read_post E p (inr data) new ->
  fetched new = [data] /\ decrypt_inputs new = [] /\ decrypt_outputs new = [].
Proof. intros H. inversion H; subst; repeat split. Qed.

(** A successful iteration on an AES-128 segment: the key comes first when
    it is fetched, then the segment, then its decryption. *)
Lemma body_post_encrypted ms host i seg key ts key' ts' new :
  body_post E ms host i seg key ts (inr (key', ts')) new ->
  is_aes128 seg = true ->
  exists k data plain,
    key' = Some k /\ truthy_opt_bytes key' = true /\
    ts' = ts ++ plain /\
    fetched new = (if truthy_opt_bytes key then [] else [k]) ++ [data] /\
    decrypt_inputs new = [data] /\
    decrypt_outputs new = [plain] /\
    decrypt_keys new = [k].
Proof.
  intros H Haes.
  inversion H as [ | | k' data n1 n2 Hs Hr | k' c data r n1 n2 Hs Hr Hd Hres]; subst.
  - destruct (select_post_Ok _ _ _ _ _ _ _ _ Hs) as (_ & _ & _ & Hno & _). congruence.
  - destruct (cbc_decrypt E (cipher_key c) (cipher_iv c) data) as [e|plain] eqn:Hc;
      [discriminate|].
    inversion Hres; subst.
    destruct (select_post_cipher _ _ _ _ _ _ _ _ Hs) as (_ & -> & Hv & Hsrc).
    destruct (read_post_fetched _ _ _ Hr) as (Hf & Hi & Ho).
    exists (cipher_key c), data, plain.
    split; [reflexivity|]. split; [now apply valid_key_len_truthy|].
    split; [reflexivity|].
    pose proof (read_post_no_decrypt _ _ _ _ Hr) as Hkr.
    rewrite !fetched_app, !decrypt_inputs_app, !decrypt_outputs_app,
      !decrypt_keys_app, Hf, Hi, Ho, Hkr.
    destruct Hsrc as [(Htr & _ & ->)|(Htr & ev & -> & [-> | ->])]; rewrite Htr;
      repeat split.
Qed.

Lemma segments_loop_encrypted_cached ms host segs : forall i k ts,
  all_aes128 segs = true -> truthy_opt_bytes (Some k) = true ->
  runs (segments_loop E ms host i segs (Some k) ts)
    (fun r new =>
       forall out, r = inr out ->
         out = ts ++ List.concat (decrypt_outputs new) /\
         List.length (decrypt_outputs new) = List.length segs /\
         List.length (decrypt_keys new) = List.length segs /\
         fetched new = decrypt_inputs new).
Proof.
  induction segs as [|s segs IH]; intros i k ts Hall Htr; cbn [segments_loop].
  - apply runs_ret. intros out H. inversion H. cbn. now rewrite app_nil_r.
  - unfold all_aes128 in Hall. cbn [forallb] in Hall.
    apply andb_true_iff in Hall as [Hs Hall].
    eapply runs_bind; [apply segment_body_runs| |].
    + intros e new _ out H. discriminate.
    + intros [key' ts'] new1 H. cbn [fst snd].
      destruct (body_post_encrypted _ _ _ _ _ _ _ _ _ H Hs)
        as (k' & data & plain & -> & Htr' & -> & Hf & Hi & Ho & Hk).
      rewrite Htr in Hf. cbn [app] in Hf.
      eapply runs_weaken; [apply (IH _ _ _ Hall Htr')|].
      intros r new2 Hpost out Hr.
      destruct (Hpost out Hr) as (-> & Hlen & Hlk & Hfd).
      rewrite fetched_app, decrypt_inputs_app, decrypt_outputs_app,
        decrypt_keys_app.
      rewrite Hf, Hi, Ho, Hk, Hfd, !length_app, Hlen, Hlk, concat_app. cbn.
      rewrite app_nil_r, <- app_assoc. repeat split.
Qed.
End Encrypted.

(** * The claims *)

(** C1. The IV of every decryption is the 16-byte big-endian expansion of
    the absolute sequence number [media_sequence + i] of its segment; the
    derivation is a function, maps 0 to sixteen zero bytes, and is
    injective on the numbers that fit in 16 bytes. *)
Theorem iv_from_sequence_number (E : Env) (input : string) (host : option string)
    (st : State E) (m : M3U8.t) (n n' : Z) :
  m3u8_loads E input = Ok m ->
  0 <= n < 2 ^ 128 ->
  0 <= n' < 2 ^ 128 ->
  let run := get_ts_from_m3u8 E input host st in
  let ivs := map (fun i => int_to_bytes_big 16 (Z.of_nat i + M3U8.media_sequence m))
               (aes_indices 0 (M3U8.segments m)) in
  (exists new,
      trace (snd run) = trace st ++ new /\
      is_prefix (decrypt_ivs new) ivs /\
      (forall out, fst run = Ok out -> decrypt_ivs new = ivs)) /\
  derive_iv n = Ok (int_to_bytes_big 16 n) /\
  List.length (int_to_bytes_big 16 n) = 16%nat /\
  int_from_bytes_big (int_to_bytes_big 16 n) = n /\
  derive_iv 0 = Ok (repeat x00 16) /\
  (n <> n' -> derive_iv n <> derive_iv n').
Proof.
  intros Hm Hn Hn' run ivs. split; [|split; [|split; [|split; [|split]]]].
  - subst run ivs.
    destruct (resolved_host m host) as [e|[h|]] eqn:Hh.
    2: { destruct (get_ts_from_m3u8_shape E input host st m h Hm Hh)
           as (new & Ht & Hp & Heq).
         exists new. split; [exact Ht|].
         rewrite decrypt_ivs_calls.
         rewrite <- (call_plan_ivs _ h _ 0%nat false), step_ivs_calls.
         split; [now apply is_prefix_flat_map|].
         intros out Hout. now rewrite (Heq out Hout). }
    all: destruct (get_ts_from_m3u8_no_host E input host st m Hm) as (Hst & e' & He);
      [intros h; rewrite Hh; discriminate|].
    all: exists []; rewrite Hst, app_nil_r; split; [reflexivity|].
    all: split; [apply is_prefix_nil|]; intros out Hout; rewrite He in Hout;
      discriminate.
  - now apply derive_iv_in_range.
  - apply int_to_bytes_big_length.
  - rewrite int_from_to_bytes_big. apply Z.mod_small.
    change (256 ^ Z.of_nat 16) with (2 ^ 128). lia.
  - reflexivity.
  - intros Hne Heq. apply Hne.
    rewrite !derive_iv_in_range in Heq by assumption.
    unfold Ok in Heq.
    assert (Hb : int_to_bytes_big 16 n = int_to_bytes_big 16 n') by congruence.
    apply (f_equal int_from_bytes_big) in Hb.
    rewrite !int_from_to_bytes_big in Hb.
    change (256 ^ Z.of_nat 16) with (2 ^ 128) in Hb.
    rewrite !Z.mod_small in Hb by lia. exact Hb.
Qed.

Lemma iv_from_sequence_number_witness :
  decrypt_ivs (trace (snd (get_ts_from_m3u8 toy_env "rotating" None toy_start))) =
    [int_to_bytes_big 16 1; int_to_bytes_big 16 2] /\
  derive_iv 5 = Ok (int_to_bytes_big 16 5) /\
  derive_iv 5 <> derive_iv 6.
Proof.
  destruct (iv_from_sequence_number toy_env "rotating" None toy_start
              playlist_rotating 5 6 eq_refl)
    as ((new & Ht & _ & Heq) & H5 & _ & _ & _ & Hinj).
  - split; [discriminate|reflexivity].
  - split; [discriminate|reflexivity].
  - split; [|split; [exact H5|apply Hinj; discriminate]].
    cbn [trace toy_start app] in Ht. rewrite Ht.
    exact (Heq _ eq_refl).
Defined.

(** C2 (the code departs from the claim). With a media sequence number of 0
    the loop of [get_host_uri] has no iteration: the key URI that is
    present is never looked at and the result is [None]; with a media
    sequence number beyond the length of [keys] the scan raises
    [IndexError] instead of returning [None]. *)
Theorem get_host_uri_bounded_by_media_sequence :
  M3U8.keys playlist_ms0 = [Some key1] /\
  Key.uri key1 = Some "base/k1" /\
  host_uri_of_key (M3U8.keys playlist_ms0) 0 = Ok "base" /\
  get_host_uri playlist_ms0 = Ok None /\
  M3U8.keys playlist_ms2 = [None] /\
  get_host_uri playlist_ms2 = Raise (IndexError "list index out of range").
Proof. repeat split. Qed.

(** C3. A conversion fetches the key at most once: it makes at most one
    fetch beyond one per segment, its calls follow the plan of the
    playlist, whose only key fetch is that of the first AES-128 segment's
    key URI, and every decryption of the run uses the bytes which that
    fetch returned. *)
Theorem key_fetched_at_most_once (E : Env) (input : string) (host : option string)
    (st : State E) (m : M3U8.t) :
  m3u8_loads E input = Ok m ->
  let run := get_ts_from_m3u8 E input host st in
  let segs := M3U8.segments m in
  exists new,
    trace (snd run) = trace st ++ new /\
    (List.length (filter is_read new) <= List.length segs + 1)%nat /\
    (forall h, resolved_host m host = Ok (Some h) ->
       is_prefix (map call_of_event new)
         (map call_of_step (call_plan (M3U8.media_sequence m) h 0 false segs)) /\
       (forall out, fst run = Ok out ->
          map call_of_event new =
          map call_of_step (call_plan (M3U8.media_sequence m) h 0 false segs)) /\
       filter is_key_read (call_plan (M3U8.media_sequence m) h 0 false segs) =
         match find is_aes128 segs with
         | Some s => [KeyRead (key_uri_of s)]
         | None => []
         end) /\
    ((forall h, resolved_host m host <> Ok (Some h)) -> new = []) /\
    (decrypt_keys new = [] \/
     exists k pre s rest,
       segs = pre ++ s :: rest /\ unencrypted pre = true /\ is_aes128 s = true /\
       (exists ev, nth_error new (List.length pre) = Some ev /\
                   is_fetch_of (key_uri_of s) k ev) /\
       valid_key_len k = true /\
       decrypt_keys new = repeat k (List.length (decrypt_keys new))).
Proof.
  intros Hm run segs. subst run segs.
  destruct (resolved_host m host) as [e|[h|]] eqn:Hh.
  2: { destruct (get_ts_from_m3u8_shape E input host st m h Hm Hh)
         as (new & Ht & Hp & Heq).
       pose proof (get_ts_from_m3u8_unfold E input host st) as Hu.
       unfold Ok in Hm. rewrite Hm in Hu. cbv beta iota in Hu. rewrite Hh in Hu.
       destruct (segments_loop_fresh_key E (M3U8.media_sequence m) h (M3U8.segments m)
                   0%nat None [] eq_refl st) as (new' & Ht' & Hkeys & _).
       rewrite <- Hu in Ht'.
       assert (new' = new) by (rewrite Ht in Ht'; now apply app_inv_head in Ht').
       subst new'. exists new. split; [exact Ht|]. split.
       { rewrite reads_of_calls.
         eapply Nat.le_trans; [apply is_prefix_filter_length; exact Hp|].
         rewrite call_plan_reads, call_plan_key_reads.
         destruct (find is_aes128 (M3U8.segments m)); cbn; lia. }
       split.
       { intros h' Hh'. inversion Hh'; subst h'.
         split; [exact Hp|]. split; [exact Heq|].
         now rewrite call_plan_key_reads. }
       split; [intros Hno; now destruct (Hno h)|exact Hkeys]. }
  all: destruct (get_ts_from_m3u8_no_host E input host st m Hm) as (Hst & _);
    [intros h; rewrite Hh; discriminate|].
  all: exists []; rewrite Hst, app_nil_r; split; [reflexivity|].
  all: split; [cbn; lia|]; split; [intros h Hh'; discriminate|].
  all: split; [reflexivity|now left].
Qed.

Lemma key_fetched_at_most_once_witness :
  List.length (M3U8.segments playlist_shared10) = 10%nat /\
  all_aes128 (M3U8.segments playlist_shared10) = true /\
  List.length
    (filter is_read (trace (snd (get_ts_from_m3u8 toy_env "shared10" None toy_start)))) =
    11%nat /\
  nth_error (trace (snd (get_ts_from_m3u8 toy_env "shared10" None toy_start))) 0 =
    Some (EvOpen (Some "base/k1") (inr (repeat x00 16))) /\
  decrypt_keys (trace (snd (get_ts_from_m3u8 toy_env "shared10" None toy_start))) =
    repeat (repeat x00 16) 10.
Proof.
  destruct (key_fetched_at_most_once toy_env "shared10" None toy_start
              playlist_shared10 eq_refl)
    as (new & Ht & _ & Hplan & _ & Hkeys).
  destruct (Hplan "base" eq_refl) as (_ & Heq & _).
  cbn [trace toy_start app] in Ht. rewrite Ht.
  split; [reflexivity|]. split; [reflexivity|].
  split; [rewrite reads_of_calls, (Heq _ eq_refl); reflexivity|].
  rewrite <- Ht. split; reflexivity.
Defined.

(** C4 (the code departs from the claim). A segment of a playlist without
    [#EXT-X-KEY] has no key object, so [segment.key.method] at line 147
    raises [AttributeError] before the pass-through [lambda x: x] of line
    145 is used: with such a first segment the pipeline returns nothing and
    fetches nothing, whatever host is settled on. *)
Theorem unencrypted_playlist_without_key_raises (E : Env) (input : string)
    (host : option string) (st : State E) (m : M3U8.t) (h : string)
    (s : Segment.t) (rest : list Segment.t) :
  m3u8_loads E input = Ok m ->
  resolved_host m host = Ok (Some h) ->
  M3U8.segments m = s :: rest ->
  Segment.key s = None ->
  get_ts_from_m3u8 E input host st =
    (Raise (AttributeError "'NoneType' object has no attribute 'method'"), st).
Proof.
  intros Hm Hh Hs Hk. unfold Ok in Hm, Hh.
  rewrite get_ts_from_m3u8_unfold, Hm. cbv beta iota. rewrite Hh, Hs.
  cbn [segments_loop]. unfold bind at 1. unfold segment_body, bind at 1.
  unfold select_decrypt_func, bind at 1. unfold lift, segment_key_method.
  now rewrite Hk.
Qed.

Lemma unencrypted_playlist_without_key_raises_witness :
  unencrypted (M3U8.segments playlist_nokey) = true /\
  map (fun s => lookup (os_path_join "base" (Segment.uri s)) toy_files)
    (M3U8.segments playlist_nokey) =
    [Some (list_byte_of_string "AAA"); Some (list_byte_of_string "BBB");
     Some (list_byte_of_string "CCC")] /\
  get_ts_from_m3u8 toy_env2 "nokey" (Some "base") toy_start2 =
    (Raise (AttributeError "'NoneType' object has no attribute 'method'"), toy_start2) /\
  fst (get_ts_from_m3u8 toy_env2 "plain3" (Some "base") toy_start2) =
    Ok (list_byte_of_string "AAABBBCCC").
Proof.
  split; [reflexivity|]. split; [reflexivity|]. split; [|reflexivity].
  exact (unencrypted_playlist_without_key_raises toy_env2 "nokey" (Some "base")
           toy_start2 playlist_nokey "base" _ _ eq_refl eq_refl eq_refl eq_refl).
Defined.

(** C5, as stated, fails: [2 ^ 132] has 34 hexadecimal digits and its
    derivation at lines 152-153 does not raise: it returns 17 bytes. *)
Lemma oversized_derivation_returns :
  hex_len (2 ^ 132) = 34%nat /\
  derive_iv (2 ^ 132) = Ok (int_to_bytes_big 17 (2 ^ 132)) /\
  List.length (int_to_bytes_big 17 (2 ^ 132)) = 17%nat.
Proof. repeat split. Qed.

(** C5, amended. For a sequence number of more than 32 hexadecimal digits
    the script compares nothing, and the derivation never gives a 16-byte
    IV nor drops a digit: [a2b_hex] raises [binascii.Error], a
    [ValueError], when the number is negative or has an odd number of
    digits, and otherwise returns all its bytes, more than 16 of them;
    [AES.new] then raises [ValueError], for the IV length when the key is
    a valid one.  So lines 152-154 always raise a [ValueError] and build
    no cipher. *)
Theorem oversized_sequence_number_rejected (n : Z) (key : bytes) :
  (32 < hex_len (Z.abs n))%nat ->
  (n < 0 \/ Nat.odd (hex_len n) = true ->
   exists msg, derive_iv n = Raise (binascii_Error msg)) /\
  (0 <= n -> Nat.odd (hex_len n) = false ->
   derive_iv n = Ok (int_to_bytes_big (Nat.div2 (hex_len n)) n) /\
   (16 < Nat.div2 (hex_len n))%nat /\
   (valid_key_len key = true ->
    AES_new key (int_to_bytes_big (Nat.div2 (hex_len n)) n) =
    Raise (ValueError "Incorrect IV length (it must be 16 bytes long)"))) /\
  (forall iv, derive_iv n = Ok iv ->
              (16 < List.length iv)%nat /\ int_from_bytes_big iv = n) /\
  (exists e, rbind (derive_iv n) (AES_new key) = inl e /\ is_ValueError e = true).
Proof.
  intros Hlen.
  assert (Hmax : 0 <= n -> Nat.max 32 (hex_len n) = hex_len n).
  { intros Hn. rewrite Z.abs_eq in Hlen by lia. lia. }
  assert (Hiv : forall iv, derive_iv n = Ok iv ->
                           (16 < List.length iv)%nat /\ int_from_bytes_big iv = n).
  { intros iv H. split; [|now apply derive_iv_value].
    destruct (derive_iv_Ok n iv H) as (Hn & -> & Hodd).
    rewrite int_to_bytes_big_length, (Hmax Hn) in *.
    rewrite Z.abs_eq in Hlen by lia.
    pose proof (Nat.div2_odd (hex_len n)) as H'. rewrite Hodd in H'. simpl in H'. lia. }
  split; [|split; [|split; [exact Hiv|]]].
  - intros [Hneg|Hodd]; [now apply derive_iv_negative|].
    destruct (Z.ltb_spec n 0) as [Hn|Hn]; [now apply derive_iv_negative|].
    rewrite derive_iv_nonneg, (Hmax Hn), Hodd by assumption. eexists; reflexivity.
  - intros Hn Hodd.
    assert (Hd : derive_iv n = Ok (int_to_bytes_big (Nat.div2 (hex_len n)) n))
      by now rewrite derive_iv_nonneg, (Hmax Hn), Hodd.
    destruct (Hiv _ Hd) as [Hl _]. rewrite int_to_bytes_big_length in Hl.
    split; [exact Hd|]. split; [exact Hl|].
    intros Hk. unfold AES_new. rewrite Hk, int_to_bytes_big_length. cbn [negb].
    destruct (Nat.eqb_spec (Nat.div2 (hex_len n)) 16); [lia|reflexivity].
  - unfold rbind. destruct (derive_iv n) as [e|iv] eqn:Hd.
    + exists e. split; [reflexivity|]. now apply derive_iv_error in Hd.
    + destruct (Hiv iv eq_refl) as [Hl _].
      unfold AES_new. destruct (negb (valid_key_len key)); [eexists; split; reflexivity|].
      destruct (Nat.eqb_spec (List.length iv) 16) as [H16|_]; [lia|].
      eexists; split; reflexivity.
Qed.

Lemma oversized_sequence_number_rejected_witness :
  rbind (derive_iv (2 ^ 132)) (AES_new (repeat x00 16)) =
    Raise (ValueError "Incorrect IV length (it must be 16 bytes long)") /\
  int_from_bytes_big (int_to_bytes_big 17 (2 ^ 132)) = 2 ^ 132 /\
  derive_iv (2 ^ 128) = Raise (binascii_Error "Odd-length string").
Proof.
  assert (H132 : (32 < hex_len (Z.abs (2 ^ 132)))%nat) by (vm_compute; lia).
  destruct (oversized_sequence_number_rejected (2 ^ 132) (repeat x00 16) H132)
    as (_ & _ & Hiv & _).
  split; [reflexivity|]. split; [|reflexivity].
  exact (proj2 (Hiv _ eq_refl)).
Defined.

(** C6, as stated, fails: the location is no URL with a scheme and a
    netloc ([urlparse] raises on its unbalanced bracket), and [read_bytes]
    does not read it from local storage: it raises, with no I/O. *)
Lemma unparsable_location_is_not_read :
  urlparse toy_env (Some "http://[bad") = Raise (ValueError "Invalid IPv6 URL") /\
  is_valid toy_env (Some "http://[bad") None = Raise (ValueError "Invalid IPv6 URL") /\
  read_bytes toy_env (Some "http://[bad") true toy_start =
    (Raise (ValueError "Invalid IPv6 URL"), toy_start).
Proof. repeat split. Qed.

(** C6, amended. When [urlparse] returns, [read_bytes] goes to the network
    exactly when the result has a scheme and a netloc, and to the local
    file system exactly when it lacks one of them; the call is made at that
    very location and its result is the result of the fetch.  When
    [urlparse] raises, the exception comes out of [read_bytes] and nothing
    is read. *)
Theorem fetch_dispatch (E : Env) (path : option string) (silent : bool)
    (st : State E) :
  let run := read_bytes E path silent st in
  exists new,
    trace (snd run) = trace st ++ new /\
    ((exists r, In (EvUrlopen path r) new) <-> is_valid E path None = Ok true) /\
    ((exists r, In (EvOpen path r) new) <-> is_valid E path None = Ok false) /\
    (is_valid E path None = Ok true <->
     exists token, urlparse E path = Ok token /\
                   pr_scheme token <> "" /\ pr_netloc token <> "") /\
    (is_valid E path None = Ok false <->
     exists token, urlparse E path = Ok token /\
                   (pr_scheme token = "" \/ pr_netloc token = "")) /\
    (is_valid E path None = Ok true ->
     fst run = fst (urlopen_read E path (world st))) /\
    (is_valid E path None = Ok false ->
     fst run = fst (open_rb_read E path (world st))) /\
    (forall p r, In (EvUrlopen p r) new \/ In (EvOpen p r) new ->
                 p = path /\ r = fst run) /\
    (forall e, urlparse E path = inl e -> run = (inl e, st)).
Proof.
  intros run. subst run.
  assert (Hraise : forall e, urlparse E path = inl e ->
                             read_bytes E path silent st = (inl e, st)).
  { intros e He. rewrite read_bytes_run, is_valid_default, He. reflexivity. }
  rewrite read_bytes_run in Hraise |- *.
  pose proof (conj (is_valid_true_iff E path) (is_valid_false_iff E path)) as Htok.
  destruct (is_valid E path None) as [e|[|]] eqn:Hv; cbv zeta; cbn [fst snd trace].
  - exists []. rewrite app_nil_r.
    split; [reflexivity|]. split; [|split; [|split; [exact (proj1 Htok)|split; [exact (proj2 Htok)|]]]].
    + split; [intros [r []]|discriminate].
    + split; [intros [r []]|discriminate].
    + split; [discriminate|]. split; [discriminate|].
      split; [intros p r [[]|[]]|exact Hraise].
  - set (r := fst (urlopen_read E path (world st))).
    exists ((if silent then [] else [EvPrint path]) ++ [EvUrlopen path r]).
    split; [reflexivity|].
    split; [|split; [|split; [exact (proj1 Htok)|split; [exact (proj2 Htok)|]]]].
    + split; [reflexivity|]. intros _. exists r. apply in_or_app. right. now left.
    + split; [|discriminate]. intros [r' Hin]. exfalso.
      destruct silent; cbn in Hin; intuition discriminate.
    + split; [reflexivity|]. split; [discriminate|].
      split; [|exact Hraise]. intros p r' Hin.
      destruct silent; cbn in Hin;
        repeat match goal with
               | H : _ \/ _ |- _ => destruct H
               | H : False |- _ => destruct H
               | H : EvPrint _ = _ |- _ => discriminate H
               | H : EvUrlopen _ _ = EvOpen _ _ |- _ => discriminate H
               | H : EvUrlopen _ _ = EvUrlopen _ _ |- _ => inversion H; clear H
               end; auto.
  - set (r := fst (open_rb_read E path (world st))).
    exists [EvOpen path r]. split; [reflexivity|].
    split; [|split; [|split; [exact (proj1 Htok)|split; [exact (proj2 Htok)|]]]].
    + split; [|discriminate]. intros [r' Hin]. exfalso.
      cbn in Hin. intuition discriminate.
    + split; [reflexivity|]. intros _. exists r. now left.
    + split; [discriminate|]. split; [reflexivity|].
      split; [|exact Hraise]. intros p r' Hin. cbn in Hin.
      repeat match goal with
             | H : _ \/ _ |- _ => destruct H
             | H : False |- _ => destruct H
             | H : EvOpen _ _ = EvUrlopen _ _ |- _ => discriminate H
             | H : EvOpen _ _ = EvOpen _ _ |- _ => inversion H; clear H
             end; auto.
Qed.

(** C7, as stated, fails: every segment URI of the playlist is an absolute
    URL, the caller passes no host, and the conversion raises
    [TypeError("Host URL is not set.")] before any fetch. *)
Lemma host_error_with_absolute_uris :
  toy_loads "absolute" = Ok playlist_absolute /\
  all_uris_absolute toy_env (M3U8.segments playlist_absolute) = true /\
  get_ts_from_m3u8 toy_env "absolute" None toy_start = (Raise host_not_set, toy_start) /\
  convert toy_env "absolute" 1%nat toy_start = (Raise host_not_set, toy_start).
Proof. repeat split. Qed.

Lemma toy_env_never_raises_host_not_set : env_never_raises toy_env host_not_set.
Proof.
  unfold env_never_raises, host_not_set.
  split; [|split; [|split]].
  - intros [s|]; cbn [urlparse toy_env]; unfold toy_urlparse;
      [destruct (prefix "http://" s); [destruct (xorb _ _)|]|]; discriminate.
  - intros [s|] w; cbn [urlopen_read toy_env]; unfold toy_urlopen_read;
      [destruct (lookup s toy_net)|]; discriminate.
  - intros [s|] w; cbn [open_rb_read toy_env]; unfold toy_open_rb_read;
      [destruct (lookup s toy_files)|]; discriminate.
  - intros k iv d. cbn [cbc_decrypt toy_env]. unfold toy_cbc_decrypt.
    destruct (_ =? _)%nat; discriminate.
Defined.

(** C7, amended. Once the playlist is parsed: when the caller supplies no
    host (none, or the empty string) and [get_host_uri] returns [None], the
    conversion raises [TypeError("Host URL is not set.")] at once, with no
    I/O and before any segment is looked at, whatever the segment URIs are;
    when [get_host_uri] raises, its [IndexError] comes out, again with no
    I/O; in every other case the run is that of the loop over the segments
    with the host settled on.  So, in a world whose libraries never raise
    that very exception, the conversion raises it exactly in the first
    case. *)
Theorem host_not_set_exactly_when_unresolved (E : Env) (input : string)
    (host : option string) (st : State E) (m : M3U8.t) :
  m3u8_loads E input = Ok m ->
  let run := get_ts_from_m3u8 E input host st in
  (truthy_opt_str host = false /\ get_host_uri m = Ok None ->
   run = (Raise host_not_set, st)) /\
  (forall e, truthy_opt_str host = false /\ get_host_uri m = inl e ->
             run = (inl e, st) /\ exists msg, e = IndexError msg) /\
  (forall h, resolved_host m host = Ok (Some h) ->
             run = segments_loop E (M3U8.media_sequence m) h 0 (M3U8.segments m)
                     None [] st) /\
  (env_never_raises E host_not_set ->
   (fst run = Raise host_not_set <->
    truthy_opt_str host = false /\ get_host_uri m = Ok None) /\
   (fst run = Raise host_not_set -> snd run = st)).
Proof.
  intros Hm run. subst run. unfold Ok in Hm.
  rewrite get_ts_from_m3u8_unfold, Hm. cbv beta iota.
  split; [|split; [|split]].
  - intros [Htr Hg]. unfold resolved_host. now rewrite Htr, Hg.
  - intros e [Htr Hg]. unfold resolved_host. rewrite Htr, Hg.
    split; [reflexivity|]. eapply get_host_uri_loop_error; exact Hg.
  - intros h Hh. unfold Ok in Hh. now rewrite Hh.
  - intros Henv.
    assert (Hloop : forall h,
               fst (segments_loop E (M3U8.media_sequence m) h 0 (M3U8.segments m)
                      None [] st) <> inl host_not_set).
    { intros h.
      destruct (segments_loop_quiet E host_not_set (M3U8.media_sequence m) h
                  (M3U8.segments m) 0%nat None [] Henv eq_refl
                  ltac:(discriminate) st) as (new & _ & Hq).
      exact Hq. }
    unfold resolved_host. destruct (truthy_opt_str host) eqn:Htr.
    + destruct host as [h|]; [|discriminate].
      split; [split; [|intros [? _]; discriminate]|]; intros H;
        now destruct (Hloop h).
    + destruct (get_host_uri m) as [e|[h|]] eqn:Hg.
      * split; [split; [|intros [_ ?]; discriminate]|]; intros H; exfalso;
          cbn in H; destruct (get_host_uri_loop_error _ _ _ Hg) as [msg ->];
          discriminate.
      * split; [split; [|intros [_ ?]; discriminate]|]; intros H;
          now destruct (Hloop h).
      * split; [split; auto|reflexivity].
Qed.

Lemma host_not_set_exactly_when_unresolved_witness :
  get_ts_from_m3u8 toy_env "absolute" None toy_start = (Raise host_not_set, toy_start) /\
  get_ts_from_m3u8 toy_env "absolute" (Some "") toy_start = (Raise host_not_set, toy_start) /\
  (fst (get_ts_from_m3u8 toy_env "plain3" (Some "base") toy_start) = Raise host_not_set <->
   truthy_opt_str (Some "base") = false /\ get_host_uri playlist_plain3 = Ok None).
Proof.
  destruct (host_not_set_exactly_when_unresolved toy_env "absolute" None toy_start
              playlist_absolute eq_refl) as (H1 & _).
  destruct (host_not_set_exactly_when_unresolved toy_env "absolute" (Some "") toy_start
              playlist_absolute eq_refl) as (H2 & _).
  destruct (host_not_set_exactly_when_unresolved toy_env "plain3" (Some "base") toy_start
              playlist_plain3 eq_refl) as (_ & _ & _ & H3).
  split; [apply H1; split; reflexivity|].
  split; [apply H2; split; reflexivity|].
  exact (proj1 (H3 toy_env_never_raises_host_not_set)).
Defined.





(** C9, as stated, fails: the content is not [None], the output is a
    text-mode file object, and [save_converted_mp3] raises the [TypeError]
    of its call of [write]. *)
Lemma save_raises_type_error_on_text_sink :
  save_converted_mp3 toy_env 0%nat (Some (list_byte_of_string "AAA")) toy_start =
    (Raise (TypeError "write() argument must be str, not bytes"),
     mkState (E:=toy_env) 0%nat
       [EvWrite 0%nat (list_byte_of_string "AAA")
          (Raise (TypeError "write() argument must be str, not bytes"))]) /\
  written 0%nat
    (trace (snd (save_converted_mp3 toy_env 0%nat
                   (Some (list_byte_of_string "AAA")) toy_start))) = [].
Proof. split; reflexivity. Qed.

(** C9, amended. [save_converted_mp3] raises its own
    [TypeError("Empty mp3 content to save.")], without a call of [write],
    exactly when the content is [None]; any other content goes to one call
    of [output.write], unchanged, and the function returns or raises what
    that call returns or raises.  When the call returns, the content is
    what the output has been given. *)
Theorem save_converted_mp3_spec (E : Env) (output : file_object)
    (content : option bytes) (st : State E) :
  let run := save_converted_mp3 E output content st in
  (content = None <-> trace (snd run) = trace st) /\
  match content with
  | None => run = (Raise (TypeError "Empty mp3 content to save."), st)
  | Some c =>
      let rw := output_write E output c (world st) in
      run = (fst rw, mkState (snd rw) (trace st ++ [EvWrite output c (fst rw)])) /\
      (fst run = Ok tt ->
       written output (trace (snd run)) = written output (trace st) ++ c) /\
      (forall e, fst run = inl e ->
                 forall o, written o (trace (snd run)) = written o (trace st))
  end.
Proof.
  intros run. subst run. destruct content as [c|]; cbn [save_converted_mp3].
  - rewrite write_run. cbn [fst snd trace]. split.
    + split; [discriminate|]. intros H. exfalso.
      apply (f_equal (@List.length event)) in H. rewrite length_app in H. cbn in H. lia.
    + cbv zeta. split; [reflexivity|]. split.
      * intros H. rewrite written_snoc_write, H. now rewrite Nat.eqb_refl.
      * intros e H o. rewrite written_snoc_write, H. apply app_nil_r.
  - split; [|reflexivity]. split; reflexivity.
Qed.

(** C10. A playlist without segments converts to the empty byte string, with
    no I/O, as soon as a host is supplied or found in the playlist. *)
Theorem empty_playlist_gives_empty_bytes (E : Env) (input : string)
    (host : option string) (st : State E) (m : M3U8.t) :
  m3u8_loads E input = Ok m ->
  M3U8.segments m = [] ->
  truthy_opt_str host = true \/ (exists h, get_host_uri m = Ok (Some h)) ->
  get_ts_from_m3u8 E input host st = (Ok [], st).
Proof.
  intros Hm Hs Hh. unfold Ok in Hm.
  rewrite get_ts_from_m3u8_unfold, Hm. cbv beta iota. rewrite Hs.
  unfold resolved_host. destruct (truthy_opt_str host) eqn:Htr.
  - destruct host as [h|]; [reflexivity|discriminate].
  - destruct Hh as [Hh|[h Hh]]; [discriminate|]. rewrite Hh. reflexivity.
Qed.

Lemma empty_playlist_gives_empty_bytes_witness :
  get_ts_from_m3u8 toy_env "empty" None toy_start = (Ok [], toy_start) /\
  get_ts_from_m3u8 toy_env "empty" (Some "anywhere") toy_start = (Ok [], toy_start).
Proof.
  split.
  - apply (empty_playlist_gives_empty_bytes toy_env "empty" None toy_start
             playlist_empty eq_refl eq_refl).
    right. exists "base". reflexivity.
  - apply (empty_playlist_gives_empty_bytes toy_env "empty" (Some "anywhere")
             toy_start playlist_empty eq_refl eq_refl).
    left. reflexivity.
Defined.

(** * Further properties of the script *)

(** X1. [get_host_uri] looks at the first [media_sequence] entries of
    [keys] and at nothing else: it returns the parent path of the first
    URI among them; without one, it returns [None] when [keys] is at least
    that long and raises [IndexError] when it is shorter. *)
Theorem get_host_uri_scans_first_keys (m : M3U8.t) :
  get_host_uri m =
  match first_uri (firstn (Z.to_nat (M3U8.media_sequence m)) (M3U8.keys m)) with
  | Some u => Ok (Some (parent_path u))
  | None =>
      if (List.length (M3U8.keys m) <? Z.to_nat (M3U8.media_sequence m))%nat
      then Raise (IndexError "list index out of range")
      else Ok None
  end.
Proof. unfold get_host_uri. now rewrite get_host_uri_loop_scan. Qed.

(** X2. [get_host_uri] raises exactly when the media sequence number
    exceeds the number of keys and no key has a URI; what it raises then is
    the [IndexError] of [keys[i]]. *)
Theorem get_host_uri_raises_iff (m : M3U8.t) :
  ((exists e, get_host_uri m = inl e) <->
   (List.length (M3U8.keys m) < Z.to_nat (M3U8.media_sequence m))%nat /\
   first_uri (M3U8.keys m) = None) /\
  (forall e, get_host_uri m = inl e -> e = IndexError "list index out of range").
Proof.
  unfold get_host_uri. rewrite get_host_uri_loop_scan. cbn [skipn].
  set (n := Z.to_nat (M3U8.media_sequence m)). set (keys := M3U8.keys m).
  destruct (Nat.ltb_spec (List.length keys) n) as [Hlt|Hge].
  - rewrite firstn_all2 by lia.
    destruct (first_uri keys) as [u|]; split.
    + split; [intros [e H]; discriminate|intros [_ H]; discriminate].
    + discriminate.
    + split; [auto|]. intros _. eexists; reflexivity.
    + intros e H. now inversion H.
  - destruct (first_uri (firstn n keys)); split;
      try discriminate; split; try (intros [e H]; discriminate); intros [H _]; lia.
Qed.

(** X3. The host that [get_host_uri] returns is a key URI of the playlist
    without its last component: the URI is the host, a slash and a
    slash-free name; a URI without a slash gives the empty host. *)
Theorem get_host_uri_is_parent_of_key_uri (m : M3U8.t) (h : string) :
  get_host_uri m = Ok (Some h) ->
  exists u,
    In u (flat_map (fun k => match entry_uri k with Some u => [u] | None => [] end)
            (M3U8.keys m)) /\
    h = parent_path u /\
    has_slash (last_component u) = false /\
    (has_slash u = true -> u = (h ++ "/" ++ last_component u)%string) /\
    (has_slash u = false -> h = "" /\ last_component u = u).
Proof.
  unfold get_host_uri. rewrite get_host_uri_loop_scan. cbn [skipn].
  destruct (first_uri _) as [u|] eqn:Hu.
  - intros H. unfold Ok in H. assert (h = parent_path u) by congruence. subst h.
    exists u. destruct (parent_path_spec u) as (H1 & H2 & H3).
    split; [|repeat split; auto; apply H3; assumption].
    clear - Hu. revert Hu.
    generalize (Z.to_nat (M3U8.media_sequence m)) as n.
    induction (M3U8.keys m) as [|k keys IH]; intros [|n]; cbn; try discriminate.
    destruct (entry_uri k) as [u'|].
    + intros H. inversion H. now left.
    + intros H. cbn. eauto.
  - destruct (_ <? _)%nat; discriminate.
Qed.

Lemma get_host_uri_is_parent_of_key_uri_witness :
  get_host_uri playlist_late_key = Ok (Some "http://cdn/keys") /\
  exists u, "http://cdn/keys" = parent_path u /\
            u = ("http://cdn/keys" ++ "/" ++ last_component u)%string.
Proof.
  split; [reflexivity|].
  destruct (get_host_uri_is_parent_of_key_uri playlist_late_key "http://cdn/keys" eq_refl)
    as (u & Hin & Hp & _ & Hs & _).
  exists u. split; [exact Hp|]. apply Hs.
  cbn in Hin. destruct Hin as [<-|[]]. reflexivity.
Defined.

(** X4. [convert] passes no host, so a playlist whose media sequence number
    is 0 or negative cannot be converted: the scan of [get_host_uri] is
    empty and the conversion raises [TypeError("Host URL is not set.")]
    with no I/O, whatever keys and segments the playlist has. *)
Theorem convert_needs_positive_media_sequence (E : Env) (input : string)
    (output : file_object) (st : State E) (m : M3U8.t) :
  m3u8_loads E input = Ok m ->
  M3U8.media_sequence m <= 0 ->
  convert E input output st = (Raise host_not_set, st).
Proof.
  intros Hm Hms. unfold Ok in Hm.
  rewrite convert_unfold, get_ts_from_m3u8_unfold, Hm. cbv beta iota.
  unfold resolved_host. cbn [truthy_opt_str].
  now rewrite get_host_uri_nonpositive.
Qed.

Lemma convert_needs_positive_media_sequence_witness :
  Key.uri key1 = Some "base/k1" /\
  M3U8.keys playlist_ms0 = [Some key1] /\
  convert toy_env2 "ms0" 1%nat toy_start2 = (Raise host_not_set, toy_start2).
Proof.
  split; [reflexivity|]. split; [reflexivity|].
  apply (convert_needs_positive_media_sequence toy_env2 "ms0" 1%nat toy_start2
           playlist_ms0 eq_refl).
  cbn. lia.
Defined.

(** X5. A playlist with a segment whose [key] is [None], wherever the
    segment stands in the list, is never converted: whatever the world
    answers and whatever host is given, [get_ts_from_m3u8] raises, and
    [convert] raises without a call of [write]. *)
Theorem conversion_needs_key_objects (E : Env) (input : string) (host : option string)
    (output : file_object) (st : State E) (m : M3U8.t) (s : Segment.t) :
  m3u8_loads E input = Ok m ->
  In s (M3U8.segments m) ->
  Segment.key s = None ->
  (exists e, fst (get_ts_from_m3u8 E input host st) = inl e) /\
  (exists e, fst (convert E input output st) = inl e) /\
  filter is_write (skipn (List.length (trace st))
                     (trace (snd (convert E input output st)))) = [].
Proof.
  intros Hm Hin Hk. unfold Ok in Hm.
  destruct (in_split _ _ Hin) as (pre & rest & Hs).
  assert (Hts : forall host, exists e new,
             fst (get_ts_from_m3u8 E input host st) = inl e /\
             trace (snd (get_ts_from_m3u8 E input host st)) = trace st ++ new /\
             filter is_write new = []).
  { intros host0. rewrite get_ts_from_m3u8_unfold, Hm. cbv beta iota.
    destruct (resolved_host m host0) as [e|[h|]].
    - exists e, []. cbn [fst snd]. rewrite app_nil_r. repeat split.
    - rewrite Hs.
      destruct (segments_loop_keyless E (M3U8.media_sequence m) h s rest pre
                  0%nat None [] Hk st) as (new & Ht & e & He).
      destruct (segments_loop_shape E (M3U8.media_sequence m) h (pre ++ s :: rest)
                  0%nat None [] st) as (new0 & Ht0 & Hp0 & _).
      assert (new0 = new) by (rewrite Ht in Ht0; now apply app_inv_head in Ht0).
      subst new0. exists e, new. split; [exact He|]. split; [exact Ht|].
      cbn [truthy_opt_bytes] in Hp0. clear - Hp0. revert Hp0.
      generalize (call_plan (M3U8.media_sequence m) h 0 false (pre ++ s :: rest)).
      induction new as [|ev new IH]; intros pl [t Ht]; [reflexivity|].
      destruct pl as [|x pl]; [discriminate|]. cbn in Ht.
      inversion Ht as [[Hx Hrest]].
      assert (Hev : is_write ev = false)
        by (destruct ev; try reflexivity; destruct x; discriminate).
      cbn. rewrite Hev. apply (IH pl). now exists t.
    - exists host_not_set, []. cbn [fst snd]. rewrite app_nil_r. repeat split. }
  split; [destruct (Hts host) as (e & _ & He & _); eauto|].
  destruct (Hts None) as (e & new & He & Ht & Hw).
  rewrite convert_unfold.
  destruct (get_ts_from_m3u8 E input None st) as [[e0|out] st'];
    cbn [fst snd] in *; [|discriminate].
  split; [eauto|]. rewrite Ht, skipn_app, skipn_all, Nat.sub_diag. exact Hw.
Qed.

Lemma conversion_needs_key_objects_witness :
  get_ts_from_m3u8 toy_env2 "keyless" (Some "base") toy_start2 =
    (Raise (AttributeError "'NoneType' object has no attribute 'method'"),
     mkState (E:=toy_env2) 1%nat
       [EvOpen (Some "base/a.ts") (inr (list_byte_of_string "AAA"))]) /\
  exists e, fst (convert toy_env2 "keyless" 1%nat toy_start2) = inl e.
Proof.
  split; [reflexivity|].
  exact (proj1 (proj2 (conversion_needs_key_objects toy_env2 "keyless" None 1%nat
                         toy_start2 playlist_keyless (Segment.mk "b.ts" None)
                         eq_refl (or_intror (or_introl eq_refl)) eq_refl))).
Defined.

(** X6. No IV is used twice in a conversion: for a playlist whose sequence
    numbers fit in 16 bytes, the IVs of the decryptions of a run are
    pairwise distinct. *)
Theorem ivs_never_repeat (E : Env) (input : string) (host : option string)
    (st : State E) (m : M3U8.t) :
  m3u8_loads E input = Ok m ->
  0 <= M3U8.media_sequence m ->
  M3U8.media_sequence m + Z.of_nat (List.length (M3U8.segments m)) <= 2 ^ 128 ->
  exists new,
    trace (snd (get_ts_from_m3u8 E input host st)) = trace st ++ new /\
    NoDup (decrypt_ivs new).
Proof.
  intros Hm H0 Hmax.
  destruct (resolved_host m host) as [e|[h|]] eqn:Hh.
  2: { destruct (get_ts_from_m3u8_shape E input host st m h Hm Hh)
         as (new & Ht & Hp & _).
       exists new. split; [exact Ht|].
       apply (is_prefix_flat_map
                (fun c => match c with CDecrypt iv => [iv] | _ => [] end)) in Hp.
       rewrite <- decrypt_ivs_calls, <- step_ivs_calls, call_plan_ivs in Hp.
       eapply is_prefix_NoDup; [exact Hp|].
       apply NoDup_map_on; [|apply aes_indices_NoDup].
       intros x y Hx Hy Heq.
       apply aes_indices_range in Hx, Hy.
       apply int_to_bytes_big_16_inj in Heq; lia. }
  all: destruct (get_ts_from_m3u8_no_host E input host st m Hm) as (Hst & _);
    [intros h; rewrite Hh; discriminate|].
  all: exists []; rewrite Hst, app_nil_r; split; [reflexivity|constructor].
Qed.

Lemma ivs_never_repeat_witness :
  NoDup (decrypt_ivs (trace (snd (get_ts_from_m3u8 toy_env "shared10" None toy_start)))) /\
  List.length
    (decrypt_ivs (trace (snd (get_ts_from_m3u8 toy_env "shared10" None toy_start)))) =
    10%nat.
Proof.
  destruct (ivs_never_repeat toy_env "shared10" None toy_start playlist_shared10 eq_refl)
    as (new & Ht & Hnd).
  - cbn. lia.
  - cbn. lia.
  - cbn [trace toy_start app] in Ht. rewrite Ht. split; [exact Hnd|].
    rewrite <- Ht. reflexivity.
Defined.


(** X8. Whenever the derivation of lines 152-153 returns, for whatever
    number, the bytes read back as a big-endian integer give the number:
    it is not negative, no digit is lost, and there are 16 bytes exactly
    when the number is below [2 ^ 128] (and more otherwise). *)
Theorem derive_iv_round_trip (n : Z) (iv : bytes) :
  derive_iv n = Ok iv ->
  0 <= n /\ int_from_bytes_big iv = n /\
  (16 <= List.length iv)%nat /\
  (List.length iv = 16%nat <-> n < 2 ^ 128).
Proof.
  intros H. destruct (derive_iv_Ok n iv H) as (Hn & Hiv & Hodd).
  split; [exact Hn|]. split; [now apply derive_iv_value|].
  assert (Hl : List.length iv = Nat.div2 (Nat.max 32 (hex_len n)))
    by (rewrite Hiv; apply int_to_bytes_big_length).
  pose proof (Nat.div2_odd (Nat.max 32 (hex_len n))) as H2.
  rewrite Hodd in H2. cbn [Nat.b2n] in H2.
  split; [lia|]. split.
  - intros H16. destruct (Z.lt_ge_cases n (2 ^ 128)) as [Hlt|Hge]; [exact Hlt|].
    pose proof (hex_len_gt n Hge). lia.
  - intros Hlt. pose proof (hex_len_le n (conj Hn Hlt)). lia.
Qed.

Lemma derive_iv_round_trip_witness :
  int_from_bytes_big (int_to_bytes_big 17 (2 ^ 132)) = 2 ^ 132 /\
  int_from_bytes_big (int_to_bytes_big 16 255) = 255.
Proof.
  split.
  - exact (proj1 (proj2 (derive_iv_round_trip (2 ^ 132) _ eq_refl))).
  - exact (proj1 (proj2 (derive_iv_round_trip 255 _ eq_refl))).
Defined.

(** X9. A conversion that succeeds has fetched every segment once and the
    key once if some segment is AES-128, and nothing else, and has made
    one decryption per AES-128 segment; it has printed nothing and written
    nothing. *)
Theorem successful_conversion_counts (E : Env) (input : string) (host : option string)
    (st st' : State E) (m : M3U8.t) (out : bytes) :
  m3u8_loads E input = Ok m ->
  get_ts_from_m3u8 E input host st = (Ok out, st') ->
  exists new,
    trace st' = trace st ++ new /\
    List.length (filter is_read new) =
      (List.length (M3U8.segments m) +
       (if existsb is_aes128 (M3U8.segments m) then 1 else 0))%nat /\
    List.length (decrypt_ivs new) = List.length (filter is_aes128 (M3U8.segments m)) /\
    filter is_write new = [] /\ filter is_print new = [].
Proof.
  intros Hm Hrun.
  destruct (resolved_host m host) as [e|[h|]] eqn:Hh.
  2: { destruct (get_ts_from_m3u8_shape E input host st m h Hm Hh)
         as (new & Ht & Hp & Heq).
       rewrite Hrun in Ht, Heq. cbn [fst snd] in Ht, Heq.
       specialize (Heq out eq_refl). exists new. split; [exact Ht|].
       split; [|split].
       - rewrite reads_of_calls, Heq, call_plan_reads, call_plan_key_reads, find_existsb.
         now destruct (find is_aes128 (M3U8.segments m)).
       - rewrite decrypt_ivs_calls, Heq, <- step_ivs_calls, call_plan_ivs.
         now rewrite length_map, aes_indices_length.
       - eapply plan_prefix_no_write. exact Hp. }
  all: destruct (get_ts_from_m3u8_no_host E input host st m Hm) as (_ & e' & He);
    [intros h; rewrite Hh; discriminate|].
  all: rewrite Hrun in He; discriminate.
Qed.

Lemma successful_conversion_counts_witness :
  List.length
    (filter is_read (trace (snd (get_ts_from_m3u8 toy_env2 "mixed" None toy_start2)))) =
    5%nat /\
  List.length
    (decrypt_ivs (trace (snd (get_ts_from_m3u8 toy_env2 "mixed" None toy_start2)))) =
    2%nat.
Proof.
  destruct (successful_conversion_counts toy_env2 "mixed" None toy_start2 _
              playlist_mixed _ eq_refl eq_refl) as (new & Ht & Hr & Hd & _).
  cbn [trace toy_start2 app] in Ht. subst new. split; [exact Hr|exact Hd].
Defined.

(** X10. A conversion reads nowhere else than at the locations of its
    segments under the host settled on ([os.path.join(host, uri)]) and at
    the key URI of the first AES-128 segment. *)
Theorem conversion_reads_only_its_playlist (E : Env) (input : string)
    (host : option string) (st : State E) (m : M3U8.t) :
  m3u8_loads E input = Ok m ->
  exists new,
    trace (snd (get_ts_from_m3u8 E input host st)) = trace st ++ new /\
    forall p r, In (EvUrlopen p r) new \/ In (EvOpen p r) new ->
      exists h, resolved_host m host = Ok (Some h) /\
        ((exists s, In s (M3U8.segments m) /\
                    p = Some (os_path_join h (Segment.uri s))) \/
         (exists s, find is_aes128 (M3U8.segments m) = Some s /\ p = key_uri_of s)).
Proof.
  intros Hm.
  destruct (resolved_host m host) as [e|[h|]] eqn:Hh.
  2: { destruct (get_ts_from_m3u8_shape E input host st m h Hm Hh)
         as (new & Ht & [t Hp] & _).
       exists new. split; [exact Ht|]. intros p r Hin. exists h. split; [reflexivity|].
       assert (Hc : In (CRead p) (map call_of_event new)).
       { destruct Hin as [Hin|Hin];
           apply (in_map call_of_event) in Hin; exact Hin. }
       assert (Hpl : In (CRead p)
                       (map call_of_step
                          (call_plan (M3U8.media_sequence m) h 0 false (M3U8.segments m)))).
       { rewrite Hp. apply in_or_app. now left. }
       apply in_map_iff in Hpl as (x & Hx & Hin').
       apply call_plan_entries in Hin'.
       destruct x as [q|q|iv]; cbn in Hx; inversion Hx; subst; auto. }
  all: destruct (get_ts_from_m3u8_no_host E input host st m Hm) as (Hst & _);
    [intros h; rewrite Hh; discriminate|].
  all: exists []; rewrite Hst, app_nil_r; split; [reflexivity|].
  all: intros p r [[]|[]].
Qed.

Lemma conversion_reads_only_its_playlist_witness :
  read_locations (trace (snd (get_ts_from_m3u8 toy_env2 "mixed" None toy_start2))) =
    [Some "base/a.ts"; Some "base/k1"; Some "base/e.ts"; Some "base/b.ts";
     Some "base/e.ts"] /\
  exists h, resolved_host playlist_mixed None = Ok (Some h).
Proof.
  destruct (conversion_reads_only_its_playlist toy_env2 "mixed" None toy_start2
              playlist_mixed eq_refl) as (new & Ht & Hloc).
  split; [reflexivity|].
  destruct (Hloc (Some "base/k1") (inr (repeat x00 16))) as (h & Hh & _).
  - right. cbn [trace toy_start2 app] in Ht. subst new. vm_compute. right. left. reflexivity.
  - exists h. exact Hh.
Defined.

(** X11. [convert] calls [write] at most once, and only after the whole
    pipeline has returned: then the one call is on the output it was
    given, with the bytes the pipeline returned, and its result is the
    result of [convert]; when the pipeline raises, [convert] raises the
    same exception, in the same state, and makes no call of [write]. *)
Theorem convert_writes_the_pipeline_bytes (E : Env) (input : string)
    (output : file_object) (st : State E) :
  let ts := get_ts_from_m3u8 E input None st in
  let run := convert E input output st in
  exists new,
    trace (snd run) = trace st ++ new /\
    match fst ts with
    | inl e => fst run = inl e /\ snd run = snd ts /\ filter is_write new = []
    | inr out =>
        filter is_write new = [EvWrite output out (fst run)] /\
        fst run = fst (output_write E output out (world (snd ts))) /\
        (fst run = Ok tt ->
         written output (trace (snd run)) = written output (trace st) ++ out)
    end.
Proof.
  intros ts run. subst ts run. rewrite convert_unfold.
  destruct (get_ts_from_m3u8_no_write E input None st) as (new & Ht & Hw).
  destruct (get_ts_from_m3u8 E input None st) as [[e|out] st'] eqn:Hrun;
    cbn [fst snd] in *.
  - exists new. auto.
  - rewrite write_run. cbn [fst snd trace].
    exists (new ++ [EvWrite output out (fst (output_write E output out (world st')))]).
    split; [now rewrite Ht, app_assoc|].
    split; [rewrite filter_app, Hw; reflexivity|]. split; [reflexivity|].
    intros Hok. rewrite written_snoc_write, Hok, Nat.eqb_refl, Ht, written_app.
    f_equal. rewrite <- (app_nil_r (written output (trace st))) at 2. f_equal.
    clear - Hw. induction new as [|ev new IH]; [reflexivity|].
    cbn in Hw |- *. destruct ev; cbn in Hw; try discriminate; cbn; auto.
Qed.

(** X12. On a playlist without an AES-128 segment, what the pipeline
    returns, when it returns, is the concatenation of the bytes its fetches
    returned: one fetch per segment, in playlist order, at
    [os.path.join(host, uri)], and no byte changed; and it returns only
    when every segment has a key object. *)
Theorem returned_bytes_are_the_fetched_bytes (E : Env) (input : string)
    (host : option string) (st st' : State E) (m : M3U8.t) (out : bytes) :
  m3u8_loads E input = Ok m ->
  unencrypted (M3U8.segments m) = true ->
  get_ts_from_m3u8 E input host st = (Ok out, st') ->
  exists h new,
    resolved_host m host = Ok (Some h) /\
    trace st' = trace st ++ new /\
    out = List.concat (fetched new) /\
    map call_of_event new =
      map (fun s => CRead (Some (os_path_join h (Segment.uri s)))) (M3U8.segments m) /\
    forallb is_read new = true /\
    List.length (fetched new) = List.length (M3U8.segments m) /\
    Forall (fun s => Segment.key s <> None) (M3U8.segments m).
Proof.
  intros Hm Hpl Hrun.
  destruct (resolved_host m host) as [e|[h|]] eqn:Hh.
  2: { exists h.
       destruct (get_ts_from_m3u8_shape E input host st m h Hm Hh)
         as (new & Ht & _ & Heq).
       rewrite Hrun in Ht, Heq. cbn [fst snd] in Ht, Heq.
       specialize (Heq out eq_refl). rewrite call_plan_plain in Heq by assumption.
       rewrite map_map in Heq. cbn [call_of_step] in Heq.
       pose proof (get_ts_from_m3u8_unfold E input host st) as Hu.
       unfold Ok in Hm. rewrite Hm in Hu. cbv beta iota in Hu. rewrite Hh in Hu.
       rewrite Hrun in Hu.
       destruct (segments_loop_plain E (M3U8.media_sequence m) h (M3U8.segments m)
                   0%nat None [] Hpl st) as (new' & Ht' & Hpost).
       rewrite <- Hu in Ht', Hpost. cbn [fst snd] in Ht', Hpost.
       assert (new' = new) by (rewrite Ht in Ht'; now apply app_inv_head in Ht').
       subst new'. destruct (Hpost out eq_refl) as (Hout & Hall & Hlen).
       exists new. split; [reflexivity|]. split; [exact Ht|]. split; [exact Hout|].
       split; [exact Heq|]. split; [exact Hall|]. split; [exact Hlen|].
       apply Forall_forall. intros s Hin Hk.
       destruct (in_split _ _ Hin) as (pre & rest & Hs).
       destruct (segments_loop_keyless E (M3U8.media_sequence m) h s rest pre
                   0%nat None [] Hk st) as (n & _ & e & He).
       rewrite Hs in Hu. rewrite <- Hu in He. discriminate. }
  all: destruct (get_ts_from_m3u8_no_host E input host st m Hm) as (_ & e' & He);
    [intros h; rewrite Hh; discriminate|].
  all: rewrite Hrun in He; discriminate.
Qed.

Lemma returned_bytes_are_the_fetched_bytes_witness :
  fst (get_ts_from_m3u8 toy_env "plain3" (Some "base") toy_start) =
    Ok (list_byte_of_string "AAABBBCCC") /\
  fetched (trace (snd (get_ts_from_m3u8 toy_env "plain3" (Some "base") toy_start))) =
    [list_byte_of_string "AAA"; list_byte_of_string "BBB"; list_byte_of_string "CCC"].
Proof.
  destruct (returned_bytes_are_the_fetched_bytes toy_env "plain3" (Some "base")
              toy_start _ playlist_plain3 _ eq_refl eq_refl eq_refl)
    as (h & new & _ & Ht & Hout & _).
  split; reflexivity.
Defined.

(** X13. On a playlist whose segments are all AES-128, what the pipeline
    returns, when it returns, is the concatenation of what the decryptions
    returned, one per segment and in playlist order; the first bytes it
    fetched are the key and every other fetch went, as it came, into the
    decryption that followed it. *)
Theorem returned_bytes_are_the_decrypted_bytes (E : Env) (input : string)
    (host : option string) (st st' : State E) (m : M3U8.t) (out : bytes) :
  m3u8_loads E input = Ok m ->
  all_aes128 (M3U8.segments m) = true ->
  M3U8.segments m <> [] ->
  get_ts_from_m3u8 E input host st = (Ok out, st') ->
  exists new k,
    trace st' = trace st ++ new /\
    out = List.concat (decrypt_outputs new) /\
    List.length (decrypt_outputs new) = List.length (M3U8.segments m) /\
    fetched new = k :: decrypt_inputs new /\
    decrypt_keys new = repeat k (List.length (M3U8.segments m)).
Proof.
  intros Hm Hall Hne Hrun.
  pose proof (get_ts_from_m3u8_unfold E input host st) as Hu.
  unfold Ok in Hm. rewrite Hm in Hu. cbv beta iota in Hu. rewrite Hrun in Hu.
  destruct (resolved_host m host) as [e|[h|]]; try discriminate.
  destruct (M3U8.segments m) as [|s segs]; [congruence|].
  unfold all_aes128 in Hall. cbn [forallb] in Hall.
  apply andb_true_iff in Hall as [Hs Hall].
  cbn [segments_loop] in Hu. unfold bind in Hu.
  destruct (segment_body_runs E (M3U8.media_sequence m) h 0%nat s None [] st)
    as (new1 & Ht1 & Hb).
  destruct (segment_body E (M3U8.media_sequence m) h 0 s None [] st)
    as [[e|[key' ts']] st1]; [discriminate|]. cbn [fst snd] in *.
  destruct (body_post_encrypted _ _ _ _ _ _ _ _ _ _ Hb Hs)
    as (k & data & plain & -> & Htr' & -> & Hf & Hi & Ho & Hd1).
  destruct (segments_loop_encrypted_cached E (M3U8.media_sequence m) h segs 1%nat k
              ([] ++ plain) Hall Htr' st1) as (new2 & Ht2 & Hpost).
  destruct (segments_loop_cached_key E (M3U8.media_sequence m) h k segs 1%nat
              ([] ++ plain) Htr' st1) as (new2' & Ht2' & Hd2).
  assert (new2' = new2) by (rewrite Ht2 in Ht2'; now apply app_inv_head in Ht2').
  subst new2'. rewrite <- Hu in Ht2, Hpost. cbn [fst snd] in Ht2, Hpost.
  destruct (Hpost out eq_refl) as (-> & Hlen & Hlk & Hfd).
  exists (new1 ++ new2), k. split; [now rewrite Ht2, Ht1, app_assoc|].
  rewrite fetched_app, decrypt_inputs_app, decrypt_outputs_app, decrypt_keys_app.
  rewrite Hf, Hi, Ho, Hfd, Hd1, length_app, Hlen, concat_app, Hd2, Hlk. cbn.
  rewrite app_nil_r. repeat split.
Qed.

(** On the stub playlist of ten segments under one key the pipeline returns
    ten decrypted segments, all decrypted under the key fetched first. *)
Lemma returned_bytes_are_the_decrypted_bytes_witness :
  exists new k,
    trace (snd (get_ts_from_m3u8 toy_env "shared10" (Some "base") toy_start)) =
      trace toy_start ++ new /\
    List.length (decrypt_outputs new) = 10%nat /\
    fetched new = k :: decrypt_inputs new /\
    decrypt_keys new = repeat k 10.
Proof.
  destruct (returned_bytes_are_the_decrypted_bytes toy_env "shared10" (Some "base")
              toy_start
              (snd (get_ts_from_m3u8 toy_env "shared10" (Some "base") toy_start))
              playlist_shared10
              (match fst (get_ts_from_m3u8 toy_env "shared10" (Some "base") toy_start)
               with inr out => out | inl _ => [] end))
    as (new & k & Ht & _ & Hlen & Hf & Hk).
  - reflexivity.
  - reflexivity.
  - discriminate.
  - vm_compute. reflexivity.
  - exists new, k. repeat split; assumption.
Defined.
